(** * C-Vec: a self expanding vector of fixed-size, type-erased elements

    Shallow embedding of [vector.c] and the properties of its operations.

    Conventions of the embedding.
    - [size_t] is a 64-bit unsigned integer and [int] a 32-bit signed one;
      both are carried by [Z], unsigned arithmetic wraps modulo [2^64] and
      the conversions between the two types are written out.
    - An operation returns an [outcome]: a value, undefined behaviour
      (signed overflow, an access outside an object, overlapping [memcpy]),
      or termination of the process by [exit].
    - The buffer of a vector is the list of its bytes.  A [void*] is either
      an offset into that buffer or an object of the caller; a pointer into
      the buffer does not outlive a [realloc] of it.
    - [malloc] and [calloc] are taken to succeed: the source never tests
      their result.  [realloc], whose result the source does test, may
      fail; whether it does is decided by the environment. *)

From Stdlib Require Import ZArith List Lia Bool String Ascii Permutation FinFun.
From Stdlib.Strings Require Import Byte.
Import ListNotations.
Local Open Scope Z_scope.

Abbreviation len l := (Z.of_nat (List.length l)) (only parsing).

(** ** Machine integers *)

Definition INT_MAX : Z := 2147483647.
Definition INT_MIN : Z := -2147483648.
Definition SIZE_MAX : Z := 18446744073709551615.

(** Conversion of a mathematical value to [size_t]; also the result of
    unsigned arithmetic and of converting an [int] operand. *)
Definition to_size_t (z : Z) : Z := z mod (SIZE_MAX + 1).

(** Conversion of a [size_t] to [int] (the value modulo [2^32], read as
    two's complement). *)
Definition to_int (n : Z) : Z := (n + 2147483648) mod 4294967296 - 2147483648.

(** ** Outcomes *)

Inductive outcome (A : Type) : Type :=
| Ok (a : A)
| Undefined
| Exited (status : Z) (stderr : string).

Arguments Ok {A} a.
Arguments Undefined {A}.
Arguments Exited {A} status stderr.

Definition bind {A B : Type} (m : outcome A) (k : A -> outcome B) : outcome B :=
  match m with
  | Ok a => k a
  | Undefined => Undefined
  | Exited s e => Exited s e
  end.

Notation "x <- m ;; k" := (bind m (fun x => k))
  (at level 61, m at next level, right associativity).
Notation "' p <- m ;; k" := (bind m (fun x => let p := x in k))
  (at level 61, p pattern, m at next level, right associativity).

(** The result of a signed [int] operation: overflow is undefined. *)
Definition int_result (r : Z) : outcome Z :=
  if (INT_MIN <=? r) && (r <=? INT_MAX) then Ok r else Undefined.

(** ** Memory *)

Definition load (buf : list byte) (off n : Z) : outcome (list byte) :=
  if (0 <=? off) && (0 <=? n) && (off + n <=? len buf)
  then Ok (firstn (Z.to_nat n) (skipn (Z.to_nat off) buf))
  else Undefined.

(** [buf] with the bytes from position [off] on replaced by [src]. *)
Definition splice (buf : list byte) (off : nat) (src : list byte) : list byte :=
  firstn off buf ++ src ++ skipn (off + List.length src) buf.

Definition store (buf : list byte) (off : Z) (src : list byte) : outcome (list byte) :=
  if (0 <=? off) && (off + len src <=? len buf)
  then Ok (splice buf (Z.to_nat off) src)
  else Undefined.

Fixpoint bytes_eqb (a b : list byte) : bool :=
  match a, b with
  | [], [] => true
  | x :: a', y :: b' => Byte.eqb x y && bytes_eqb a' b'
  | _, _ => false
  end.

(** ** The vector *)

Record Vector : Type := {
  array : list byte;
  elem_size : Z;
  length : Z;
  capacity : Z
}.

Definition set_array (v : Vector) (a : list byte) : Vector :=
  {| array := a; elem_size := elem_size v; length := length v; capacity := capacity v |}.

Definition set_length (v : Vector) (n : Z) : Vector :=
  {| array := array v; elem_size := elem_size v; length := n; capacity := capacity v |}.

(** A [void*] as the operations use it. *)
Inductive ptr : Type :=
| in_array (off : Z)
| object (bytes : list byte).

(** The [n] bytes a pointer designates, read now. *)
Definition read (vector : Vector) (p : ptr) (n : Z) : outcome (list byte) :=
  match p with
  | in_array off => load (array vector) off n
  | object bytes => load bytes 0 n
  end.

Definition overlaps (dst : Z) (src : ptr) (n : Z) : bool :=
  match src with
  | in_array off => (0 <? n) && (off <? dst + n) && (dst <? off + n)
  | object _ => false
  end.

(** [memcpy(vector->array + dst, src, n)]. *)
Definition memcpy (vector : Vector) (dst : Z) (src : ptr) (n : Z) : outcome Vector :=
  if overlaps dst src n then Undefined
  else
    bytes <- read vector src n ;;
    array' <- store (array vector) dst bytes ;;
    Ok (set_array vector array').

(** [memcmp(p1, p2, n) == 0], the first pointer into [vector1] or an object,
    the second into [vector2] or an object. *)
Definition memcmp_is_0 (vector1 : Vector) (p1 : ptr) (vector2 : Vector) (p2 : ptr)
    (n : Z) : outcome bool :=
  b1 <- read vector1 p1 n ;;
  b2 <- read vector2 p2 n ;;
  Ok (bytes_eqb b1 b2).

Definition TRUE : Z := 1.
Definition FALSE : Z := 0.

Definition newline : string := String (ascii_of_nat 10) EmptyString.

Definition expansion_failed : string :=
  ("ERROR: Vector expansion failed, possibly out of memory? Exiting..." ++ newline)%string.

Definition inequal_element_sizes : string :=
  ("ERROR: Attempted to compare vectors with inequal element sizes!" ++ newline)%string.

Section Environment.

(** [(int) ceil(log(x) / log(2))] as the C library computes it in floating
    point, for an [int] [x] greater than 2. *)
Variable ceil_log2 : Z -> Z.

(** Whether [realloc] can satisfy a request for that many bytes. *)
Variable realloc_ok : Z -> bool.

(** The bytes found in memory that [realloc] hands out uninitialised. *)
Variable uninit : nat -> byte.

Definition next_pow_2 (x : Z) : Z :=
  if x <=? 2 then 1 else ceil_log2 x.

(** [calloc(n, size)]: a zero-filled block. *)
Definition calloc (n size : Z) : list byte :=
  repeat x00 (Z.to_nat (n * size)).

(** [(size_t) pow(2, e)].  For [0 <= e <= 63] [pow] is exact and the
    conversion is the identity; for [e < 0] the double lies strictly
    between 0 and 1 and the conversion truncates it to 0, which is also the
    value of [2 ^ e] in [Z]. *)
Definition pow_2 (e : Z) : Z := 2 ^ e.

Definition create_vector_with_capacity (elem_size initial_size : Z) : Vector :=
  let actual_size := pow_2 (next_pow_2 (to_int initial_size)) in
  let array := calloc actual_size elem_size in
  {| array := array; elem_size := elem_size; length := 0; capacity := actual_size |}.

Definition create_vector (elem_size : Z) : Vector :=
  create_vector_with_capacity elem_size 16.

(** [memcpy(array, old->array, old->elem_size * old->length)] copies from
    the start of the old buffer to the start of the new, zero-filled one. *)
Definition clone (old : Vector) : outcome Vector :=
  let new_array := calloc (capacity old) (elem_size old) in
  bytes <- load (array old) 0 (to_size_t (elem_size old * length old)) ;;
  new_array <- store new_array 0 bytes ;;
  Ok {| array := new_array; elem_size := elem_size old;
        length := length old; capacity := capacity old |}.

Definition get_elem (vector : Vector) (index : Z) : ptr :=
  in_array (to_size_t (to_size_t index * elem_size vector)).

Definition set_elem (vector : Vector) (index : Z) (element : ptr) : outcome Vector :=
  memcpy vector (to_size_t (to_size_t index * elem_size vector)) element
    (elem_size vector).

(** The loops below run on a budget of guard evaluations.  In a loop
    [for (int i = a; i < n; i++)] the counter is converted to [size_t] for
    the comparison with [n], and incrementing it past [INT_MAX] is
    undefined.  From a non-negative [a] the guard is evaluated at most
    [n - a + 1] times; a negative [a] converts to a value of at least
    [2^64 - 2^31], and the guard fails at [i = -1] at the latest, after at
    most [n - (2^64 + a) + 1] evaluations.  Each loop is therefore given
    the budget [S (Z.to_nat n)], which it cannot exhaust. *)

Fixpoint remove_elem_loop (budget : nat) (vector : Vector) (i : Z) : outcome Vector :=
  match budget with
  | O => Undefined
  | S budget =>
      if to_size_t i <? length vector then
        let next_elem := get_elem vector i in
        i_1 <- int_result (i - 1) ;;
        vector <- set_elem vector i_1 next_elem ;;
        i <- int_result (i + 1) ;;
        remove_elem_loop budget vector i
      else Ok vector
  end.

Definition remove_elem (vector : Vector) (index : Z) : outcome Vector :=
  i <- int_result (index + 1) ;;
  vector <- remove_elem_loop (S (Z.to_nat (length vector))) vector i ;;
  Ok (set_length vector (to_size_t (length vector - 1))).

Fixpoint index_of_loop (budget : nat) (vector : Vector) (element : ptr) (i : Z)
    : outcome Z :=
  match budget with
  | O => Undefined
  | S budget =>
      if to_size_t i <? length vector then
        let candidate := get_elem vector i in
        equal <- memcmp_is_0 vector candidate vector element (elem_size vector) ;;
        if equal then Ok i
        else
          i <- int_result (i + 1) ;;
          index_of_loop budget vector element i
      else Ok (-1)
  end.

Definition index_of (vector : Vector) (element : ptr) : outcome Z :=
  index_of_loop (S (Z.to_nat (length vector))) vector element 0.

Definition is_empty (vector : Vector) : Z :=
  if length vector =? 0 then TRUE else FALSE.

(** The inner loop of [any_elems_shared]: whether it reached [return TRUE]. *)
Fixpoint any_elems_shared_inner (budget : nat) (vector1 : Vector) (elem1 : ptr)
    (vector2 : Vector) (j : Z) : outcome bool :=
  match budget with
  | O => Undefined
  | S budget =>
      if to_size_t j <? length vector2 then
        let elem2 := get_elem vector2 j in
        equal <- memcmp_is_0 vector1 elem1 vector2 elem2 (elem_size vector1) ;;
        if equal then Ok true
        else
          j <- int_result (j + 1) ;;
          any_elems_shared_inner budget vector1 elem1 vector2 j
      else Ok false
  end.

Fixpoint any_elems_shared_outer (budget : nat) (vector1 vector2 : Vector) (i : Z)
    : outcome Z :=
  match budget with
  | O => Undefined
  | S budget =>
      if to_size_t i <? length vector1 then
        let elem1 := get_elem vector1 i in
        returned <- any_elems_shared_inner (S (Z.to_nat (length vector2)))
                      vector1 elem1 vector2 0 ;;
        if returned then Ok TRUE
        else
          i <- int_result (i + 1) ;;
          any_elems_shared_outer budget vector1 vector2 i
      else Ok FALSE
  end.

(** The text written to [stderr] and the value returned. *)
Definition any_elems_shared (vector1 vector2 : Vector) : outcome (string * Z) :=
  if negb (elem_size vector1 =? elem_size vector2) then
    Ok (inequal_element_sizes, FALSE)
  else
    r <- any_elems_shared_outer (S (Z.to_nat (length vector1))) vector1 vector2 0 ;;
    Ok (EmptyString, r).

Definition swap_elems (vector : Vector) (index1 index2 : Z) : outcome Vector :=
  if index1 =? index2 then Ok vector
  else
    let elem1 := get_elem vector index1 in
    let elem2 := get_elem vector index2 in
    temp <- read vector elem1 (elem_size vector) ;;
    vector <- set_elem vector index1 elem2 ;;
    vector <- set_elem vector index2 (object temp) ;;
    Ok vector.

(** The comparison function receives the [elem_size] bytes its two
    arguments point to and returns an [int]. *)
Fixpoint sort_vector_inner (budget : nat) (vector : Vector)
    (compare : list byte -> list byte -> Z) (min : ptr) (min_index : Z) (j : Z)
    : outcome (ptr * Z) :=
  match budget with
  | O => Undefined
  | S budget =>
      if to_size_t j <? length vector then
        let candidate := get_elem vector j in
        min_bytes <- read vector min (elem_size vector) ;;
        candidate_bytes <- read vector candidate (elem_size vector) ;;
        let result := compare min_bytes candidate_bytes in
        let min' := if result =? 1 then candidate else min in
        let min_index' := if result =? 1 then j else min_index in
        j <- int_result (j + 1) ;;
        sort_vector_inner budget vector compare min' min_index' j
      else Ok (min, min_index)
  end.

Fixpoint sort_vector_outer (budget : nat) (vector : Vector)
    (compare : list byte -> list byte -> Z) (i : Z) : outcome Vector :=
  match budget with
  | O => Undefined
  | S budget =>
      if to_size_t i <? to_size_t (length vector - 1) then
        let min_index := i in
        let min := get_elem vector i in
        j <- int_result (i + 1) ;;
        found <- sort_vector_inner (S (Z.to_nat (length vector))) vector compare
                   min min_index j ;;
        vector <- swap_elems vector i (snd found) ;;
        i <- int_result (i + 1) ;;
        sort_vector_outer budget vector compare i
      else Ok vector
  end.

Definition sort_vector (vector : Vector) (compare : list byte -> list byte -> Z)
    : outcome Vector :=
  sort_vector_outer (S (Z.to_nat (to_size_t (length vector - 1)))) vector compare 0.

(** [realloc(array, new_bytes)]: the old contents up to the smaller of the
    two sizes, then uninitialised bytes. *)
Definition realloc (array : list byte) (new_bytes : Z) : option (list byte) :=
  if realloc_ok new_bytes then
    let n := Z.to_nat new_bytes in
    Some (firstn n (array ++ map uninit (seq 0 (n - List.length array))))
  else None.

Definition expand_vector (vector : Vector) (new_size : Z) : outcome Vector :=
  let array := array vector in
  let new_bytes := to_size_t (elem_size vector * new_size) in
  match realloc array new_bytes with
  | None => Exited 1 expansion_failed
  | Some new_array =>
      Ok {| array := new_array; elem_size := elem_size vector;
            length := length vector; capacity := new_size |}
  end.

(** [realloc] ends the lifetime of the old block.  When [push_back] has
    expanded the vector, an [element] that points into the old buffer is
    no longer valid, and the copy that reads through it is undefined. *)
Definition push_back (vector : Vector) (element : ptr) : outcome Vector :=
  vector <- (if length vector >=? capacity vector
             then
               vector <- expand_vector vector (to_size_t (capacity vector * 2)) ;;
               match element with
               | in_array _ => Undefined
               | object _ => Ok vector
               end
             else Ok vector) ;;
  vector <- set_elem vector (to_int (length vector)) element ;;
  Ok (set_length vector (to_size_t (length vector + 1))).

Fixpoint create_vector_with_default_loop (budget : nat) (vector : Vector)
    (initial_size : Z) (default_value : ptr) (i : Z) : outcome Vector :=
  match budget with
  | O => Undefined
  | S budget =>
      if to_size_t i <? initial_size then
        vector <- push_back vector default_value ;;
        i <- int_result (i + 1) ;;
        create_vector_with_default_loop budget vector initial_size default_value i
      else Ok vector
  end.

Definition create_vector_with_default (elem_size initial_size : Z)
    (default_value : ptr) : outcome Vector :=
  let vector := create_vector_with_capacity elem_size initial_size in
  create_vector_with_default_loop (S (Z.to_nat initial_size)) vector initial_size
    default_value 0.

End Environment.

(** ** Vocabulary of the properties *)

(** The environment in which the library computes the logarithm exactly,
    [realloc] never fails and fresh memory reads as zero. *)
Definition exact_ceil_log2 : Z -> Z := Z.log2_up.
Definition realloc_succeeds : Z -> bool := fun _ => true.
Definition zero_filled : nat -> byte := fun _ => x00.

Definition is_pow2 (p : Z) : Prop := exists e, 0 <= e /\ p = 2 ^ e.

(** [p] is the smallest power of two that is at least [a] and at least [b]. *)
Definition least_pow2_above (p a b : Z) : Prop :=
  is_pow2 p /\ a <= p /\ b <= p /\
  forall q, is_pow2 q -> a <= q -> b <= q -> p <= q.

(** The bytes of slot [i]. *)
Definition slot (v : Vector) (i : Z) : list byte :=
  firstn (Z.to_nat (elem_size v)) (skipn (Z.to_nat (i * elem_size v)) (array v)).

(** The [n] integers from [start] on. *)
Fixpoint Zseq (start : Z) (n : nat) : list Z :=
  match n with
  | O => []
  | S n => start :: Zseq (start + 1) n
  end.

(** The valid indices, in increasing order, and the elements they hold. *)
Definition indices (v : Vector) : list Z :=
  Zseq 0 (Z.to_nat (length v)).

Definition elems (v : Vector) : list (list byte) :=
  map (slot v) (indices v).

(** The buffer of slot [i] overwritten with [bytes]. *)
Definition put (v : Vector) (i : Z) (bytes : list byte) : Vector :=
  set_array v (splice (array v) (Z.to_nat (i * elem_size v)) bytes).

(** A vector as the data model describes it: the buffer holds [capacity]
    slots of [elem_size] bytes, the sizes are values of [size_t], and the
    first [length] slots are the valid ones. *)
Record valid (v : Vector) : Prop := {
  valid_elem_size : 0 <= elem_size v;
  valid_length : 0 <= length v <= capacity v;
  valid_capacity : capacity v <= SIZE_MAX;
  valid_bytes : capacity v * elem_size v <= SIZE_MAX;
  valid_buffer : len (array v) = capacity v * elem_size v
}.

(** Every valid index is a value of [int], the type of the indices of the
    interface. *)
Definition int_indexed (v : Vector) : Prop := length v <= INT_MAX.

(** The index whose former contents slot [k] holds once slots [i] and [j]
    have been exchanged. *)
Definition exchanged (i j k : Z) : Z :=
  if k =? i then j else if k =? j then i else k.

(** The boolean OR, over the pairs of a valid index of [a] and a valid
    index of [b], of the equality of the two slots. *)
Definition some_pair_equal (a b : Vector) : bool :=
  existsb (fun i => existsb (fun j => bytes_eqb (slot a i) (slot b j)) (indices b))
    (indices a).

Definition BOOL_of (b : bool) : Z := if b then TRUE else FALSE.

(** Appending the elements of a list in order. *)
Fixpoint push_all (realloc_ok : Z -> bool) (uninit : nat -> byte)
    (v : Vector) (elements : list (list byte)) : outcome Vector :=
  match elements with
  | [] => Ok v
  | e :: rest =>
      v' <- push_back realloc_ok uninit v (object e) ;;
      push_all realloc_ok uninit v' rest
  end.

(** What holds of a vector obtained from the empty [v0] by [k] appends. *)
Definition appended (v0 : Vector) (k : nat) (v : Vector) : Prop :=
  valid v /\ elem_size v = elem_size v0 /\ length v = Z.of_nat k /\
  is_pow2 (capacity v) /\ capacity v <= Z.max (capacity v0) (2 * Z.of_nat k).

(** A 4-byte [int] in memory, least significant byte first. *)
Definition byte_of_Z (z : Z) : byte :=
  match Byte.of_N (Z.to_N (z mod 256)) with
  | Some b => b
  | None => x00
  end.

Definition int_bytes (n : Z) : list byte :=
  map (fun k => byte_of_Z (n / 256 ^ k)) [0; 1; 2; 3].

(** The [int] that the first four bytes hold. *)
Definition int_value (bytes : list byte) : Z :=
  let unsigned :=
    fold_right (fun b acc => Z.of_N (Byte.to_N b) + 256 * acc) 0 (firstn 4 bytes) in
  if unsigned <? 2147483648 then unsigned else unsigned - 4294967296.

(** A comparison function that answers 1 exactly when its first argument
    is the smaller [int]. *)
Definition descending (a b : list byte) : Z :=
  if int_value a <? int_value b then 1 else -1.

(** The vector [create_vector(4)] returns when the logarithm of 16 is 4. *)
Definition fresh_16_ints : Vector :=
  {| array := repeat x00 64; elem_size := 4; length := 0; capacity := 16 |}.

(** Sample vectors: three one-byte elements in four slots, and two
    two-byte elements in two slots. *)
Definition three_bytes : Vector :=
  {| array := [x03; x01; x02; x00]; elem_size := 1; length := 3; capacity := 4 |}.

Definition two_pairs : Vector :=
  {| array := [x01; x02; x03; x04]; elem_size := 2; length := 2; capacity := 2 |}.

(** The elements of [v] are in non-decreasing order of [key]. *)
Definition sorted_by (key : list byte -> Z) (v : Vector) : Prop :=
  forall p q, 0 <= p <= q -> q < length v -> key (slot v p) <= key (slot v q).

(** A slot of [v] that holds only zero bytes. *)
Definition zero_slot (v : Vector) : list byte :=
  repeat x00 (Z.to_nat (elem_size v)).

(** The first [elem_size] bytes of an object, which is what slot-sized
    copies and comparisons see of it. *)
Definition elem_of (v : Vector) (bytes : list byte) : list byte :=
  firstn (Z.to_nat (elem_size v)) bytes.

(** One-byte keys for the sample vectors. *)
Definition first_byte (bytes : list byte) : Z :=
  match bytes with
  | [] => 0
  | b :: _ => Z.of_N (Byte.to_N b)
  end.

Definition by_first_byte (a b : list byte) : Z :=
  if first_byte b <? first_byte a then 1 else 0.

Ltac conjs := repeat match goal with |- _ /\ _ => split end.

(** Validity of a vector given in full. *)
Ltac valid_by_computation :=
  constructor; vm_compute; repeat split; (reflexivity || discriminate).

(** ** Machine arithmetic within range *)

Lemma to_size_t_small z : 0 <= z <= SIZE_MAX -> to_size_t z = z.
Proof. intros H. unfold to_size_t, SIZE_MAX in *. apply Z.mod_small. lia. Qed.

Lemma to_int_small n : INT_MIN <= n <= INT_MAX -> to_int n = n.
Proof.
  intros H. unfold to_int, INT_MIN, INT_MAX in *.
  rewrite Z.mod_small by lia. lia.
Qed.

Lemma int_result_ok r : INT_MIN <= r <= INT_MAX -> int_result r = Ok r.
Proof.
  intros [H1 H2]. unfold int_result.
  apply Z.leb_le in H1, H2. now rewrite H1, H2.
Qed.

Lemma ltb_size_t_int i n :
  0 <= i -> i <= SIZE_MAX -> (to_size_t i <? n) = (i <? n).
Proof. intros. now rewrite to_size_t_small by lia. Qed.

(** ** Equality of byte strings *)

Lemma bytes_eqb_eq a b : bytes_eqb a b = true <-> a = b.
Proof.
  revert b. induction a as [|x a IH]; intros [|y b]; simpl; split; intros H;
    try reflexivity; try discriminate.
  - apply andb_true_iff in H as [Hx Hab]. apply byte_dec_bl in Hx.
    apply IH in Hab. now subst.
  - injection H as -> ->. apply andb_true_iff. split.
    + now apply byte_dec_lb.
    + now apply IH.
Qed.

Lemma bytes_eqb_sym a b : bytes_eqb a b = bytes_eqb b a.
Proof.
  destruct (bytes_eqb a b) eqn:E.
  - apply bytes_eqb_eq in E. subst. symmetry. now apply bytes_eqb_eq.
  - destruct (bytes_eqb b a) eqn:E'; [|reflexivity].
    apply bytes_eqb_eq in E'. subst.
    assert (bytes_eqb a a = true) by now apply bytes_eqb_eq. congruence.
Qed.

(** ** Bytes spliced into a buffer *)

Section Splice.
Variables (buf src : list byte) (off : nat).
Hypothesis fits : (off + List.length src <= List.length buf)%nat.

Lemma length_splice : List.length (splice buf off src) = List.length buf.
Proof.
  unfold splice. rewrite !length_app, length_firstn, length_skipn. lia.
Qed.

Lemma chunk_splice_same :
  firstn (List.length src) (skipn off (splice buf off src)) = src.
Proof.
  unfold splice. rewrite skipn_app, length_firstn.
  replace (off - Nat.min off (List.length buf))%nat with 0%nat by lia.
  rewrite skipn_all2 by (rewrite length_firstn; lia).
  simpl. rewrite firstn_app, Nat.sub_diag. simpl.
  rewrite firstn_all, app_nil_r. reflexivity.
Qed.

Lemma chunk_splice_other (off' n : nat) :
  (off' + n <= off \/ off + List.length src <= off')%nat ->
  firstn n (skipn off' (splice buf off src)) = firstn n (skipn off' buf).
Proof.
  intros Hdisj.
  apply nth_error_ext. intros k.
  rewrite !nth_error_firstn.
  destruct (k <? n)%nat eqn:Hk; [|reflexivity].
  apply Nat.ltb_lt in Hk.
  rewrite !nth_error_skipn. unfold splice.
  destruct Hdisj as [Hbefore | Hafter].
  - rewrite nth_error_app1 by (rewrite length_firstn; lia).
    rewrite nth_error_firstn.
    replace (off' + k <? off)%nat with true by (symmetry; apply Nat.ltb_lt; lia).
    reflexivity.
  - rewrite nth_error_app2 by (rewrite length_firstn; lia).
    rewrite nth_error_app2 by (rewrite length_firstn; lia).
    rewrite nth_error_skipn, length_firstn. f_equal. lia.
Qed.

End Splice.

(** ** Slots of a valid vector *)

Section Slots.
Variable v : Vector.
Hypothesis Hv : valid v.

Lemma slot_offset i :
  0 <= i < capacity v ->
  to_size_t (to_size_t i * elem_size v) = i * elem_size v /\
  0 <= i * elem_size v /\
  i * elem_size v + elem_size v <= len (array v).
Proof.
  intros Hi. destruct Hv as [Hes Hlen Hcap Hbytes Hbuf].
  assert (0 <= i * elem_size v) by nia.
  assert (i * elem_size v + elem_size v <= capacity v * elem_size v) by nia.
  rewrite (to_size_t_small i) by lia.
  rewrite to_size_t_small by lia. lia.
Qed.

Lemma length_slot i :
  0 <= i < capacity v -> len (slot v i) = elem_size v.
Proof.
  intros Hi. destruct (slot_offset i Hi) as (_ & H0 & H1).
  unfold slot. rewrite length_firstn, length_skipn.
  pose proof (valid_elem_size v Hv). lia.
Qed.

Lemma read_get_elem i :
  0 <= i < capacity v ->
  read v (get_elem v i) (elem_size v) = Ok (slot v i).
Proof.
  intros Hi. destruct (slot_offset i Hi) as (Hoff & H0 & H1).
  pose proof (valid_elem_size v Hv) as Hes.
  unfold get_elem, read, load. rewrite Hoff.
  replace (0 <=? i * elem_size v) with true by (symmetry; apply Z.leb_le; lia).
  replace (0 <=? elem_size v) with true by (symmetry; apply Z.leb_le; lia).
  replace (i * elem_size v + elem_size v <=? len (array v)) with true
    by (symmetry; apply Z.leb_le; lia).
  reflexivity.
Qed.

Lemma store_slot i bytes :
  0 <= i < capacity v -> len bytes = elem_size v ->
  store (array v) (i * elem_size v) bytes = Ok (array (put v i bytes)).
Proof.
  intros Hi Hb. destruct (slot_offset i Hi) as (Hoff & H0 & H1).
  unfold store.
  replace (0 <=? i * elem_size v) with true by (symmetry; apply Z.leb_le; lia).
  replace (i * elem_size v + len bytes <=? len (array v)) with true
    by (symmetry; apply Z.leb_le; lia).
  reflexivity.
Qed.

Lemma set_elem_object i bytes :
  0 <= i < capacity v -> elem_size v <= len bytes ->
  set_elem v i (object bytes) =
  Ok (put v i (firstn (Z.to_nat (elem_size v)) bytes)).
Proof.
  intros Hi Hb. destruct (slot_offset i Hi) as (Hoff & H0 & H1).
  pose proof (valid_elem_size v Hv) as Hes.
  unfold set_elem, memcpy. rewrite Hoff. simpl.
  unfold load.
  replace (0 <=? elem_size v) with true by (symmetry; apply Z.leb_le; lia).
  replace (0 + elem_size v <=? len bytes) with true
    by (symmetry; apply Z.leb_le; lia).
  simpl. rewrite store_slot; [reflexivity | assumption |].
  rewrite length_firstn. lia.
Qed.

Lemma set_elem_slot i j :
  0 <= i < capacity v -> 0 <= j < capacity v -> i <> j ->
  set_elem v i (get_elem v j) = Ok (put v i (slot v j)).
Proof.
  intros Hi Hj Hij. destruct (slot_offset i Hi) as (Hoff & H0 & H1).
  destruct (slot_offset j Hj) as (Hoffj & H0j & H1j).
  pose proof (valid_elem_size v Hv) as Hes.
  unfold set_elem, memcpy. rewrite Hoff.
  assert (Hov : overlaps (i * elem_size v) (get_elem v j) (elem_size v) = false).
  { unfold get_elem, overlaps. rewrite Hoffj.
    destruct (0 <? elem_size v) eqn:E; [|reflexivity]. apply Z.ltb_lt in E.
    simpl. apply andb_false_iff.
    assert (j < i \/ i < j) as [Hlt | Hlt] by lia.
    - right. apply Z.ltb_ge. nia.
    - left. apply Z.ltb_ge. nia. }
  rewrite Hov, read_get_elem by assumption. simpl.
  rewrite store_slot; [reflexivity | assumption | now apply length_slot].
Qed.

Section Put.
Variables (i : Z) (bytes : list byte).
Hypothesis Hi : 0 <= i < capacity v.
Hypothesis Hb : len bytes = elem_size v.

Lemma valid_put : valid (put v i bytes).
Proof.
  destruct (slot_offset i Hi) as (Hoff & H0 & H1).
  destruct Hv as [Hes Hlen Hcap Hbytes Hbuf].
  constructor; try assumption.
  unfold put. cbn [array set_array elem_size capacity].
  rewrite length_splice by lia. exact Hbuf.
Qed.

Lemma slot_put_same : slot (put v i bytes) i = bytes.
Proof.
  destruct (slot_offset i Hi) as (Hoff & H0 & H1).
  unfold slot, put. cbn [array set_array elem_size].
  replace (Z.to_nat (elem_size v)) with (List.length bytes) by lia.
  apply chunk_splice_same. lia.
Qed.

Lemma slot_put_other j :
  0 <= j < capacity v -> j <> i -> slot (put v i bytes) j = slot v j.
Proof.
  intros Hj Hji.
  destruct (slot_offset i Hi) as (Hoff & H0 & H1).
  destruct (slot_offset j Hj) as (Hoffj & H0j & H1j).
  pose proof (valid_elem_size v Hv) as Hes.
  unfold slot, put. cbn [array set_array elem_size].
  apply chunk_splice_other; [lia|].
  assert (j < i \/ i < j) as [Hlt | Hlt] by lia.
  - left. assert (j * elem_size v + elem_size v <= i * elem_size v) by nia. lia.
  - right. assert (i * elem_size v + elem_size v <= j * elem_size v) by nia. lia.
Qed.

End Put.
End Slots.

Lemma valid_set_length (v : Vector) (n : Z) :
  valid v -> 0 <= n <= capacity v -> valid (set_length v n).
Proof. intros [? ? ? ? ?] Hn. constructor; assumption. Qed.

(** ** Ranges of indices *)

Lemma in_Zseq x start n : In x (Zseq start n) <-> start <= x < start + Z.of_nat n.
Proof.
  revert start. induction n as [|n IH]; intros start; simpl.
  - lia.
  - rewrite IH. lia.
Qed.

Lemma NoDup_Zseq start n : NoDup (Zseq start n).
Proof.
  revert start. induction n as [|n IH]; intros start; simpl; constructor.
  - rewrite in_Zseq. lia.
  - apply IH.
Qed.

Lemma Zseq_next start n :
  (0 < n)%nat -> Zseq start n = start :: Zseq (start + 1) (n - 1).
Proof. destruct n; [lia|]. intros _. simpl. now rewrite Nat.sub_0_r. Qed.

(** ** Powers of two *)

Lemma is_pow2_pos p : is_pow2 p -> 1 <= p.
Proof.
  intros (e & He & ->). pose proof (Z.pow_pos_nonneg 2 e). lia.
Qed.

Lemma least_pow2_unchanged c k :
  is_pow2 c -> k <= c -> least_pow2_above c k c.
Proof. intros Hc Hk. unfold least_pow2_above. conjs; try assumption; lia. Qed.

Lemma least_pow2_doubled c :
  is_pow2 c -> least_pow2_above (2 * c) (c + 1) c.
Proof.
  intros Hc. pose proof (is_pow2_pos c Hc) as Hpos.
  destruct Hc as (e & He & ->).
  unfold least_pow2_above. conjs; try lia.
  - exists (e + 1). split; [lia|]. rewrite Z.pow_add_r by lia. lia.
  - intros q (e' & He' & ->) Hq _.
    assert (e + 1 <= e').
    { destruct (Z_le_gt_dec (e + 1) e') as [|Hgt]; [assumption|].
      assert (2 ^ e' <= 2 ^ e) by (apply Z.pow_le_mono_r; lia). lia. }
    replace (2 * 2 ^ e) with (2 ^ (e + 1)) by (rewrite Z.pow_add_r by lia; lia).
    apply Z.pow_le_mono_r; lia.
Qed.

(** ** Construction *)

Lemma valid_create_vector_with_capacity ceil_log2 es initial_size :
  0 <= es ->
  let v := create_vector_with_capacity ceil_log2 es initial_size in
  capacity v * es <= SIZE_MAX -> capacity v <= SIZE_MAX ->
  valid v.
Proof.
  intros Hes v Hbytes Hcap. subst v.
  unfold create_vector_with_capacity in *. cbn [capacity] in *.
  set (c := pow_2 _) in *.
  assert (0 <= c) by (unfold c, pow_2; apply Z.pow_nonneg; lia).
  constructor; cbn [elem_size length capacity array]; try lia.
  unfold calloc. rewrite repeat_length. nia.
Qed.

Lemma is_pow2_create_vector_with_capacity ceil_log2 es initial_size :
  (2 < to_int initial_size -> 0 <= ceil_log2 (to_int initial_size)) ->
  is_pow2 (capacity (create_vector_with_capacity ceil_log2 es initial_size)).
Proof.
  intros Hlog. unfold create_vector_with_capacity, next_pow_2, pow_2. cbn [capacity].
  destruct (to_int initial_size <=? 2) eqn:E.
  - exists 1. split; [lia | reflexivity].
  - apply Z.leb_gt in E. eexists. split; [apply Hlog; lia | reflexivity].
Qed.

Lemma create_vector_16 ceil_log2 :
  ceil_log2 16 = 4 -> create_vector ceil_log2 4 = fresh_16_ints.
Proof.
  intros H. unfold create_vector, create_vector_with_capacity, next_pow_2.
  change (to_int 16) with 16. cbn [Z.leb Z.compare Pos.compare Pos.compare_cont].
  rewrite H. reflexivity.
Qed.

(** C1, as the code has it.  For every element size and every requested
    minimum capacity, [create_vector_with_capacity] returns a vector of
    length 0; and any request of at most 2 is answered with capacity 2:
    [next_pow_2] returns the exponent 1 for it and the capacity is
    [2 ^ 1].  This holds whatever the library computes for the logarithm,
    which such a request does not reach. *)
Theorem create_vector_with_capacity_spec
    (ceil_log2 : Z -> Z) (elem_size min_capacity : Z) :
  let v := create_vector_with_capacity ceil_log2 elem_size min_capacity in
  length v = 0 /\
  (0 <= min_capacity <= 2 -> capacity v = 2).
Proof.
  intros v. subst v.
  unfold create_vector_with_capacity, next_pow_2, pow_2. cbn [length capacity].
  split; [reflexivity|].
  intros Hsmall.
  rewrite to_int_small by (unfold INT_MIN, INT_MAX; lia).
  replace (min_capacity <=? 2) with true by (symmetry; apply Z.leb_le; lia).
  reflexivity.
Qed.

Lemma create_vector_with_capacity_spec_witness :
  0 <= 2 <= 2 /\
  let v := create_vector_with_capacity exact_ceil_log2 4 2 in
  length v = 0 /\ capacity v = 2.
Proof.
  split; [lia|].
  destruct (create_vector_with_capacity_spec exact_ceil_log2 4 2) as [Hlength Hcapacity].
  split; [exact Hlength | apply Hcapacity; lia].
Defined.

(** A request for capacity 2 is answered with capacity 2, the smallest
    power of two that is at least 2, and not with capacity 1. *)
Lemma create_vector_with_capacity_of_2 :
  capacity (create_vector_with_capacity exact_ceil_log2 4 2) = 2 /\
  capacity (create_vector_with_capacity exact_ceil_log2 4 2) <> 1.
Proof. split; [reflexivity | discriminate]. Qed.

(** ** Removal *)

Lemma remove_elem_loop_spec budget :
  forall (w : Vector) (k : Z),
    valid w -> int_indexed w -> 1 <= k <= length w ->
    (Z.to_nat (length w - k) < budget)%nat ->
    exists w',
      remove_elem_loop budget w k = Ok w' /\ valid w' /\
      elem_size w' = elem_size w /\ length w' = length w /\
      capacity w' = capacity w /\
      (forall j, 0 <= j < k - 1 -> slot w' j = slot w j) /\
      (forall j, k <= j < length w -> slot w' (j - 1) = slot w j).
Proof.
  induction budget as [|budget IH]; intros w k Hw Hint Hk Hbudget; [lia|].
  pose proof (valid_length w Hw) as Hlen. unfold int_indexed in Hint.
  cbn [remove_elem_loop].
  rewrite ltb_size_t_int by (unfold INT_MAX, SIZE_MAX in *; lia).
  destruct (k <? length w) eqn:Elt.
  - apply Z.ltb_lt in Elt.
    rewrite int_result_ok by (unfold INT_MIN, INT_MAX in *; lia). cbn [bind].
    rewrite set_elem_slot by (assumption || lia). cbn [bind].
    rewrite int_result_ok by (unfold INT_MIN, INT_MAX in *; lia). cbn [bind].
    set (w1 := put w (k - 1) (slot w k)).
    assert (Hslot : len (slot w k) = elem_size w)
      by (apply length_slot; [assumption | lia]).
    assert (Hw1 : valid w1) by (apply valid_put; [assumption | lia | assumption]).
    destruct (IH w1 (k + 1)) as (w' & Hrun & Hw' & Hes & Hl & Hc & Hlow & Hhigh);
      try assumption.
    { change (length w1) with (length w). lia. }
    { change (length w1) with (length w). lia. }
    exists w'. split; [exact Hrun|]. split; [exact Hw'|].
    change (elem_size w1) with (elem_size w) in Hes.
    change (length w1) with (length w) in Hl, Hhigh.
    change (capacity w1) with (capacity w) in Hc.
    conjs; try assumption.
    + intros j Hj. rewrite Hlow by lia.
      apply slot_put_other; assumption || lia.
    + intros j Hj. destruct (Z.eq_dec j k) as [-> | Hne].
      * rewrite Hlow by lia. apply slot_put_same; assumption || lia.
      * rewrite Hhigh by lia. apply slot_put_other; assumption || lia.
  - apply Z.ltb_ge in Elt. exists w. conjs; try assumption; try reflexivity; lia.
Qed.

(** C4.  For every valid vector whose indices are [int]s and every index
    [i] with [0 <= i < length], [remove_elem] returns with the length
    decreased by exactly 1, every element that was at an index [j > i] now
    at index [j - 1], and every element below [i] unchanged; the element
    size and the capacity are kept. *)
Theorem remove_elem_shifts (a : Vector) (i : Z) :
  valid a -> int_indexed a -> 0 <= i < length a ->
  exists a',
    remove_elem a i = Ok a' /\
    length a' = length a - 1 /\
    (forall j, i < j < length a -> slot a' (j - 1) = slot a j) /\
    (forall j, 0 <= j < i -> slot a' j = slot a j) /\
    elem_size a' = elem_size a /\ capacity a' = capacity a.
Proof.
  intros Ha Hint Hi. pose proof Hint as Hint'. unfold int_indexed in Hint'.
  unfold remove_elem.
  rewrite int_result_ok by (unfold INT_MIN, INT_MAX in *; lia). cbn [bind].
  destruct (remove_elem_loop_spec (S (Z.to_nat (length a))) a (i + 1))
    as (w' & Hrun & Hw' & Hes & Hl & Hc & Hlow & Hhigh); try assumption; try lia.
  rewrite Hrun. cbn [bind].
  eexists. split; [reflexivity|]. conjs.
  - cbn [length set_length]. rewrite Hl.
    apply to_size_t_small. unfold INT_MAX, SIZE_MAX in *. lia.
  - intros j Hj. change (slot (set_length w' _) (j - 1)) with (slot w' (j - 1)).
    apply Hhigh. lia.
  - intros j Hj. change (slot (set_length w' _) j) with (slot w' j).
    apply Hlow. lia.
  - exact Hes.
  - exact Hc.
Qed.

Lemma remove_elem_shifts_witness :
  exists a',
    remove_elem three_bytes 1 = Ok a' /\
    length a' = length three_bytes - 1 /\
    (forall j, 1 < j < length three_bytes -> slot a' (j - 1) = slot three_bytes j) /\
    (forall j, 0 <= j < 1 -> slot a' j = slot three_bytes j) /\
    elem_size a' = elem_size three_bytes /\ capacity a' = capacity three_bytes.
Proof.
  apply (remove_elem_shifts three_bytes 1).
  - valid_by_computation.
  - unfold int_indexed, INT_MAX. cbn. lia.
  - cbn. lia.
Defined.

(** C5.  For every vector whose length is an [int] below [INT_MAX],
    [remove_elem] at the index equal to the length leaves its loop at the
    first test of the guard, so that the buffer is unchanged, and still
    decrements the length by one in [size_t] arithmetic: to [length - 1]
    for a non-empty vector, and around to [SIZE_MAX] for an empty one. *)
Theorem remove_elem_at_length (v : Vector) :
  0 <= length v < INT_MAX ->
  remove_elem_loop (S (Z.to_nat (length v))) v (length v + 1) = Ok v /\
  exists v',
    remove_elem v (length v) = Ok v' /\
    array v' = array v /\
    length v' = to_size_t (length v - 1) /\
    (0 < length v -> length v' = length v - 1) /\
    (length v = 0 -> length v' = SIZE_MAX).
Proof.
  intros Hlen.
  assert (Hloop : remove_elem_loop (S (Z.to_nat (length v))) v (length v + 1) = Ok v).
  { cbn [remove_elem_loop].
    rewrite to_size_t_small by (unfold INT_MAX, SIZE_MAX in *; lia).
    replace (length v + 1 <? length v) with false by (symmetry; apply Z.ltb_ge; lia).
    reflexivity. }
  split; [exact Hloop|].
  unfold remove_elem.
  rewrite int_result_ok by (unfold INT_MIN, INT_MAX in *; lia).
  cbn [bind]. rewrite Hloop. cbn [bind].
  eexists. split; [reflexivity|]. cbn [array length set_length]. conjs.
  - reflexivity.
  - reflexivity.
  - intros Hpos. apply to_size_t_small. unfold INT_MAX, SIZE_MAX in *. lia.
  - intros ->. reflexivity.
Qed.

Lemma remove_elem_at_length_witness :
  remove_elem_loop (S (Z.to_nat (length three_bytes))) three_bytes
    (length three_bytes + 1) = Ok three_bytes /\
  exists v',
    remove_elem three_bytes (length three_bytes) = Ok v' /\
    array v' = array three_bytes /\
    length v' = to_size_t (length three_bytes - 1) /\
    (0 < length three_bytes -> length v' = length three_bytes - 1) /\
    (length three_bytes = 0 -> length v' = SIZE_MAX).
Proof.
  apply (remove_elem_at_length three_bytes).
  unfold INT_MAX. cbn. lia.
Defined.

(** ** Search *)

Section IndexOf.
Variables (v : Vector) (element : list byte).
Hypothesis Hv : valid v.
Hypothesis Hint : int_indexed v.
Hypothesis Helement : elem_size v <= len element.

Lemma memcmp_slot_object i :
  0 <= i < capacity v ->
  memcmp_is_0 v (get_elem v i) v (object element) (elem_size v) =
  Ok (bytes_eqb (slot v i) (firstn (Z.to_nat (elem_size v)) element)).
Proof.
  intros Hi. unfold memcmp_is_0. rewrite read_get_elem by assumption.
  pose proof (valid_elem_size v Hv) as Hes.
  simpl. unfold load.
  replace (0 <=? elem_size v) with true by (symmetry; apply Z.leb_le; lia).
  replace (0 + elem_size v <=? len element) with true
    by (symmetry; apply Z.leb_le; lia).
  reflexivity.
Qed.

Lemma index_of_loop_spec budget i :
  0 <= i <= length v -> (Z.to_nat (length v - i) < budget)%nat ->
  exists r,
    index_of_loop budget v (object element) i = Ok r /\
    ((i <= r < length v /\
      slot v r = firstn (Z.to_nat (elem_size v)) element /\
      forall j, i <= j < r -> slot v j <> firstn (Z.to_nat (elem_size v)) element) \/
     (r = -1 /\
      forall j, i <= j < length v ->
        slot v j <> firstn (Z.to_nat (elem_size v)) element)).
Proof.
  revert i. induction budget as [|budget IH]; intros i Hi Hbudget; [lia|].
  pose proof (valid_length v Hv) as Hlen. unfold int_indexed in Hint.
  cbn [index_of_loop].
  rewrite ltb_size_t_int by (unfold INT_MAX, SIZE_MAX in *; lia).
  destruct (i <? length v) eqn:Elt.
  - apply Z.ltb_lt in Elt.
    rewrite memcmp_slot_object by lia. cbn [bind].
    destruct (bytes_eqb (slot v i) _) eqn:E.
    + apply bytes_eqb_eq in E. exists i. split; [reflexivity|].
      left. conjs; try lia; try assumption.
    + rewrite int_result_ok by (unfold INT_MIN, INT_MAX in *; lia). cbn [bind].
      destruct (IH (i + 1)) as (r & Hr & Hcases); try lia.
      exists r. split; [exact Hr|].
      assert (Hi_ne : slot v i <> firstn (Z.to_nat (elem_size v)) element).
      { intros Heq. apply bytes_eqb_eq in Heq. congruence. }
      destruct Hcases as [(Hrange & Hat & Hbefore) | (-> & Hnone)].
      * left. conjs; try lia; try assumption.
        intros j Hj. destruct (Z.eq_dec j i) as [-> | Hne]; [assumption|].
        apply Hbefore. lia.
      * right. split; [reflexivity|].
        intros j Hj. destruct (Z.eq_dec j i) as [-> | Hne]; [assumption|].
        apply Hnone. lia.
  - apply Z.ltb_ge in Elt. exists (-1). split; [reflexivity|].
    right. split; [reflexivity|]. intros j Hj. lia.
Qed.

End IndexOf.

(** C8.  For every valid vector [a] whose indices are [int]s and every
    value [v] of at least [elem_size] bytes, [index_of] returns the smallest
    index [r] with [0 <= r < length] whose slot equals the bytes of [v], or
    -1 when no valid index holds bytes equal to those of [v]. *)
Theorem index_of_first_match (a : Vector) (v : list byte) :
  valid a -> int_indexed a -> elem_size a <= len v ->
  exists r,
    index_of a (object v) = Ok r /\
    ((0 <= r < length a /\
      slot a r = firstn (Z.to_nat (elem_size a)) v /\
      forall j, 0 <= j < r -> slot a j <> firstn (Z.to_nat (elem_size a)) v) \/
     (r = -1 /\
      forall j, 0 <= j < length a -> slot a j <> firstn (Z.to_nat (elem_size a)) v)).
Proof.
  intros Ha Hint Hv. unfold index_of.
  apply index_of_loop_spec; try assumption.
  - pose proof (valid_length a Ha). lia.
  - lia.
Qed.

Lemma index_of_first_match_witness :
  exists r,
    index_of three_bytes (object [x01]) = Ok r /\
    ((0 <= r < length three_bytes /\
      slot three_bytes r = firstn (Z.to_nat (elem_size three_bytes)) [x01] /\
      forall j, 0 <= j < r ->
        slot three_bytes j <> firstn (Z.to_nat (elem_size three_bytes)) [x01]) \/
     (r = -1 /\
      forall j, 0 <= j < length three_bytes ->
        slot three_bytes j <> firstn (Z.to_nat (elem_size three_bytes)) [x01])).
Proof.
  apply (index_of_first_match three_bytes [x01]).
  - valid_by_computation.
  - unfold int_indexed, INT_MAX. cbn. lia.
  - cbn. lia.
Defined.

(** ** Shared elements *)

Lemma some_pair_equal_sym a b : some_pair_equal a b = some_pair_equal b a.
Proof.
  apply eq_iff_eq_true. unfold some_pair_equal.
  rewrite !existsb_exists. split.
  - intros (i & Hi & Hex). apply existsb_exists in Hex as (j & Hj & Heq).
    exists j. split; [assumption|]. apply existsb_exists.
    exists i. split; [assumption|]. now rewrite bytes_eqb_sym.
  - intros (j & Hj & Hex). apply existsb_exists in Hex as (i & Hi & Heq).
    exists i. split; [assumption|]. apply existsb_exists.
    exists j. split; [assumption|]. now rewrite bytes_eqb_sym.
Qed.

Section AnyShared.
Variables vector1 vector2 : Vector.
Hypothesis Hv1 : valid vector1.
Hypothesis Hv2 : valid vector2.
Hypothesis Hint1 : int_indexed vector1.
Hypothesis Hint2 : int_indexed vector2.
Hypothesis Hsize : elem_size vector1 = elem_size vector2.

Lemma any_elems_shared_inner_spec budget i j :
  0 <= i < capacity vector1 ->
  0 <= j <= length vector2 -> (Z.to_nat (length vector2 - j) < budget)%nat ->
  any_elems_shared_inner budget vector1 (get_elem vector1 i) vector2 j =
  Ok (existsb (fun j' => bytes_eqb (slot vector1 i) (slot vector2 j'))
        (Zseq j (Z.to_nat (length vector2 - j)))).
Proof.
  intros Hi. revert j. induction budget as [|budget IH]; intros j Hj Hbudget; [lia|].
  pose proof (valid_length vector2 Hv2) as Hlen.
  unfold int_indexed in Hint2.
  cbn [any_elems_shared_inner].
  rewrite ltb_size_t_int by (unfold INT_MAX, SIZE_MAX in *; lia).
  destruct (j <? length vector2) eqn:Elt.
  - apply Z.ltb_lt in Elt.
    unfold memcmp_is_0. rewrite read_get_elem by assumption.
    rewrite Hsize, read_get_elem by (assumption || lia). cbn [bind].
    rewrite Zseq_next by lia. cbn [existsb].
    destruct (bytes_eqb (slot vector1 i) (slot vector2 j)); [reflexivity|].
    rewrite int_result_ok by (unfold INT_MIN, INT_MAX in *; lia). cbn [bind].
    rewrite IH by lia. cbn [orb].
    do 3 f_equal. lia.
  - apply Z.ltb_ge in Elt.
    replace (Z.to_nat (length vector2 - j)) with 0%nat by lia. reflexivity.
Qed.

Lemma any_elems_shared_outer_spec budget i :
  0 <= i <= length vector1 -> (Z.to_nat (length vector1 - i) < budget)%nat ->
  any_elems_shared_outer budget vector1 vector2 i =
  Ok (BOOL_of
        (existsb
           (fun i' => existsb (fun j => bytes_eqb (slot vector1 i') (slot vector2 j))
                        (indices vector2))
           (Zseq i (Z.to_nat (length vector1 - i))))).
Proof.
  revert i. induction budget as [|budget IH]; intros i Hi Hbudget; [lia|].
  pose proof (valid_length vector1 Hv1) as Hlen.
  unfold int_indexed in Hint1.
  cbn [any_elems_shared_outer].
  rewrite ltb_size_t_int by (unfold INT_MAX, SIZE_MAX in *; lia).
  destruct (i <? length vector1) eqn:Elt.
  - apply Z.ltb_lt in Elt.
    rewrite any_elems_shared_inner_spec
      by (pose proof (valid_length vector2 Hv2); lia).
    cbn [bind]. rewrite Z.sub_0_r. fold (indices vector2).
    rewrite (Zseq_next i) by lia. cbn [existsb].
    destruct (existsb _ (indices vector2)); [reflexivity|].
    rewrite int_result_ok by (unfold INT_MIN, INT_MAX in *; lia). cbn [bind].
    rewrite IH by lia. cbn [orb].
    do 4 f_equal. lia.
  - apply Z.ltb_ge in Elt.
    replace (Z.to_nat (length vector1 - i)) with 0%nat by lia. reflexivity.
Qed.

Lemma any_elems_shared_value :
  any_elems_shared vector1 vector2 =
  Ok (EmptyString, BOOL_of (some_pair_equal vector1 vector2)).
Proof.
  unfold any_elems_shared.
  replace (elem_size vector1 =? elem_size vector2) with true
    by (symmetry; now apply Z.eqb_eq).
  cbn [negb]. rewrite any_elems_shared_outer_spec
    by (pose proof (valid_length vector1 Hv1); lia).
  cbn [bind]. rewrite Z.sub_0_r. reflexivity.
Qed.

End AnyShared.

(** C6.  For every pair of valid vectors [a] and [b] with [int] indices and
    equal element size, [any_elems_shared a b] equals
    [any_elems_shared b a], and both return, with nothing written to
    [stderr], the boolean OR over all pairs of a valid index [i] of [a] and
    a valid index [j] of [b] of the equality of the bytes of slot [i] of
    [a] with those of slot [j] of [b]. *)
Theorem any_elems_shared_symmetric_or (a b : Vector) :
  valid a -> valid b -> int_indexed a -> int_indexed b ->
  elem_size a = elem_size b ->
  any_elems_shared a b = any_elems_shared b a /\
  any_elems_shared a b = Ok (EmptyString, BOOL_of (some_pair_equal a b)) /\
  any_elems_shared b a = Ok (EmptyString, BOOL_of (some_pair_equal a b)).
Proof.
  intros Ha Hb Hia Hib Hsize.
  rewrite (any_elems_shared_value a b), (any_elems_shared_value b a)
    by (assumption || now symmetry).
  rewrite (some_pair_equal_sym b a). conjs; reflexivity.
Qed.

Lemma any_elems_shared_symmetric_or_witness :
  any_elems_shared three_bytes three_bytes = any_elems_shared three_bytes three_bytes /\
  any_elems_shared three_bytes three_bytes =
    Ok (EmptyString, BOOL_of (some_pair_equal three_bytes three_bytes)) /\
  any_elems_shared three_bytes three_bytes =
    Ok (EmptyString, BOOL_of (some_pair_equal three_bytes three_bytes)).
Proof.
  apply (any_elems_shared_symmetric_or three_bytes three_bytes).
  - valid_by_computation.
  - valid_by_computation.
  - unfold int_indexed, INT_MAX. cbn. lia.
  - unfold int_indexed, INT_MAX. cbn. lia.
  - reflexivity.
Defined.

(** C7.  For every pair of vectors whose element sizes differ,
    [any_elems_shared] writes its error message to [stderr] and returns
    [FALSE]; it does so whatever the two buffers hold, even buffers too
    short to be read, hence without inspecting any byte of either. *)
Theorem any_elems_shared_inequal_sizes (v1 v2 : Vector) :
  elem_size v1 <> elem_size v2 ->
  any_elems_shared v1 v2 = Ok (inequal_element_sizes, FALSE) /\
  forall array1 array2 : list byte,
    any_elems_shared (set_array v1 array1) (set_array v2 array2) =
    Ok (inequal_element_sizes, FALSE).
Proof.
  intros Hne. apply Z.eqb_neq in Hne.
  unfold any_elems_shared. cbn [elem_size set_array].
  rewrite Hne. cbn [negb]. split; [reflexivity | intros; reflexivity].
Qed.

Lemma any_elems_shared_inequal_sizes_witness :
  any_elems_shared three_bytes two_pairs = Ok (inequal_element_sizes, FALSE) /\
  forall array1 array2 : list byte,
    any_elems_shared (set_array three_bytes array1) (set_array two_pairs array2) =
    Ok (inequal_element_sizes, FALSE).
Proof.
  apply (any_elems_shared_inequal_sizes three_bytes two_pairs).
  cbn. lia.
Defined.

(** ** Exchange and sorting *)

Lemma exchanged_involutive i j k : exchanged i j (exchanged i j k) = k.
Proof.
  unfold exchanged.
  destruct (Z.eqb_spec k i) as [-> | Hki].
  - destruct (Z.eqb_spec j i) as [-> | Hji]; [reflexivity|].
    now rewrite Z.eqb_refl.
  - destruct (Z.eqb_spec k j) as [-> | Hkj].
    + now rewrite Z.eqb_refl.
    + destruct (Z.eqb_spec k i); [contradiction|].
      destruct (Z.eqb_spec k j); [contradiction | reflexivity].
Qed.

Lemma exchanged_range i j k n :
  0 <= i < n -> 0 <= j < n -> 0 <= k < n -> 0 <= exchanged i j k < n.
Proof.
  intros. unfold exchanged.
  destruct (k =? i); [lia|]. destruct (k =? j); lia.
Qed.

Lemma Permutation_exchanged i j n :
  0 <= i < Z.of_nat n -> 0 <= j < Z.of_nat n ->
  Permutation (map (exchanged i j) (Zseq 0 n)) (Zseq 0 n).
Proof.
  intros Hi Hj. apply NoDup_Permutation.
  - apply Injective_map_NoDup; [|apply NoDup_Zseq].
    intros x y Hxy. rewrite <- (exchanged_involutive i j x), Hxy.
    apply exchanged_involutive.
  - apply NoDup_Zseq.
  - intros x. rewrite in_map_iff. split.
    + intros (y & <- & Hy). apply in_Zseq in Hy. apply in_Zseq.
      pose proof (exchanged_range i j y (Z.of_nat n)). lia.
    + intros Hx. apply in_Zseq in Hx. exists (exchanged i j x). split.
      * apply exchanged_involutive.
      * apply in_Zseq. pose proof (exchanged_range i j x (Z.of_nat n)). lia.
Qed.

Lemma swap_elems_spec (v : Vector) (i j : Z) :
  valid v -> 0 <= i < length v -> 0 <= j < length v ->
  exists v',
    swap_elems v i j = Ok v' /\ valid v' /\
    elem_size v' = elem_size v /\ length v' = length v /\
    capacity v' = capacity v /\
    forall k, 0 <= k < capacity v -> slot v' k = slot v (exchanged i j k).
Proof.
  intros Hv Hi Hj. pose proof (valid_length v Hv) as Hlen.
  unfold swap_elems. destruct (Z.eqb_spec i j) as [-> | Hne].
  - exists v. conjs; try assumption; try reflexivity.
    intros k Hk. unfold exchanged. destruct (Z.eqb_spec k j); congruence.
  - rewrite read_get_elem by (assumption || lia). cbn [bind].
    rewrite set_elem_slot by (assumption || lia). cbn [bind].
    set (v1 := put v i (slot v j)).
    assert (Hsj : len (slot v j) = elem_size v)
      by (apply length_slot; [assumption | lia]).
    assert (Hsi : len (slot v i) = elem_size v)
      by (apply length_slot; [assumption | lia]).
    assert (Hv1 : valid v1) by (apply valid_put; [assumption | lia | assumption]).
    rewrite (set_elem_object v1 Hv1)
      by (change (capacity v1) with (capacity v);
          change (elem_size v1) with (elem_size v); lia).
    change (elem_size v1) with (elem_size v).
    rewrite firstn_all2 by lia. cbn [bind].
    eexists. split; [reflexivity|].
    split; [apply valid_put; [assumption | change (capacity v1) with (capacity v); lia
                             | assumption]|].
    conjs; try reflexivity.
    intros k Hk. unfold exchanged.
    destruct (Z.eqb_spec k i) as [-> | Hki].
    + rewrite slot_put_other; try assumption;
        try (change (capacity v1) with (capacity v); lia).
      apply slot_put_same; assumption || lia.
    + destruct (Z.eqb_spec k j) as [-> | Hkj].
      * apply slot_put_same; try assumption;
          try (change (capacity v1) with (capacity v); lia).
      * rewrite slot_put_other; try assumption;
          try (change (capacity v1) with (capacity v); lia).
        apply slot_put_other; assumption || lia.
Qed.

Lemma swap_elems_Permutation (v : Vector) (i j : Z) :
  valid v -> 0 <= i < length v -> 0 <= j < length v ->
  exists v',
    swap_elems v i j = Ok v' /\ valid v' /\
    elem_size v' = elem_size v /\ length v' = length v /\
    capacity v' = capacity v /\
    Permutation (elems v') (elems v).
Proof.
  intros Hv Hi Hj.
  destruct (swap_elems_spec v i j Hv Hi Hj)
    as (v' & Hrun & Hv' & Hes & Hl & Hc & Hslots).
  exists v'. conjs; try assumption.
  pose proof (valid_length v Hv) as Hlen.
  unfold elems, indices. rewrite Hl.
  rewrite (map_ext_in (slot v') (fun k => slot v (exchanged i j k))).
  - rewrite <- (map_map (exchanged i j) (slot v)).
    apply Permutation_map, Permutation_exchanged; lia.
  - intros k Hk. apply in_Zseq in Hk. apply Hslots. lia.
Qed.

Section Sort.
Variable compare : list byte -> list byte -> Z.

Lemma sort_vector_inner_spec (v : Vector) budget :
  valid v -> int_indexed v ->
  forall m j,
    0 <= m < length v -> 0 <= j <= length v ->
    (Z.to_nat (length v - j) < budget)%nat ->
    exists m',
      sort_vector_inner budget v compare (get_elem v m) m j =
      Ok (get_elem v m', m') /\
      0 <= m' < length v.
Proof.
  intros Hv Hint. pose proof (valid_length v Hv) as Hlen.
  unfold int_indexed in Hint.
  induction budget as [|budget IH]; intros m j Hm Hj Hbudget; [lia|].
  cbn [sort_vector_inner].
  rewrite ltb_size_t_int by (unfold INT_MAX, SIZE_MAX in *; lia).
  destruct (j <? length v) eqn:Elt.
  - apply Z.ltb_lt in Elt.
    rewrite !read_get_elem by (assumption || lia). cbn [bind].
    rewrite int_result_ok by (unfold INT_MIN, INT_MAX in *; lia). cbn [bind].
    destruct (compare (slot v m) (slot v j) =? 1); apply IH; lia.
  - exists m. split; [reflexivity | assumption].
Qed.

Lemma sort_vector_outer_spec budget :
  forall (w : Vector) (i : Z),
    valid w -> int_indexed w -> 1 <= length w -> 0 <= i <= length w - 1 ->
    (Z.to_nat (length w - 1 - i) < budget)%nat ->
    exists w',
      sort_vector_outer budget w compare i = Ok w' /\ valid w' /\
      elem_size w' = elem_size w /\ length w' = length w /\
      capacity w' = capacity w /\
      Permutation (elems w') (elems w).
Proof.
  induction budget as [|budget IH]; intros w i Hw Hint Hne Hi Hbudget; [lia|].
  pose proof (valid_length w Hw) as Hlen. pose proof Hint as Hint'.
  unfold int_indexed in Hint'.
  cbn [sort_vector_outer].
  rewrite ltb_size_t_int by (unfold INT_MAX, SIZE_MAX in *; lia).
  rewrite (to_size_t_small (length w - 1)) by (unfold INT_MAX, SIZE_MAX in *; lia).
  destruct (i <? length w - 1) eqn:Elt.
  - apply Z.ltb_lt in Elt.
    rewrite int_result_ok by (unfold INT_MIN, INT_MAX in *; lia). cbn [bind].
    destruct (sort_vector_inner_spec w (S (Z.to_nat (length w))) Hw Hint i (i + 1))
      as (m & Hinner & Hm); try lia.
    rewrite Hinner. cbn [bind snd].
    destruct (swap_elems_Permutation w i m)
      as (w1 & Hswap & Hw1 & Hes1 & Hl1 & Hc1 & Hp1); try assumption; try lia.
    rewrite Hswap. cbn [bind].
    destruct (IH w1 (i + 1)) as (w' & Hrun & Hw' & Hes & Hl & Hc & Hp);
      try assumption; try (unfold int_indexed; lia); try lia.
    exists w'. conjs; try assumption; try congruence.
    now transitivity (elems w1).
  - exists w. conjs; try assumption; try reflexivity.
Qed.

End Sort.

Section SortSignal.
Variables compare compare' : list byte -> list byte -> Z.
Hypothesis same_signal :
  forall a b, (compare a b =? 1) = (compare' a b =? 1).

Lemma sort_vector_inner_ext budget v min min_index j :
  sort_vector_inner budget v compare min min_index j =
  sort_vector_inner budget v compare' min min_index j.
Proof.
  revert min min_index j. induction budget as [|budget IH]; intros; [reflexivity|].
  cbn [sort_vector_inner].
  destruct (to_size_t j <? length v); [|reflexivity].
  destruct (read v min (elem_size v)) as [a| |]; cbn [bind]; try reflexivity.
  destruct (read v (get_elem v j) (elem_size v)) as [b| |]; cbn [bind];
    try reflexivity.
  rewrite same_signal.
  destruct (int_result (j + 1)); cbn [bind]; try reflexivity. apply IH.
Qed.

Lemma sort_vector_outer_ext budget v i :
  sort_vector_outer budget v compare i = sort_vector_outer budget v compare' i.
Proof.
  revert v i. induction budget as [|budget IH]; intros; [reflexivity|].
  cbn [sort_vector_outer].
  destruct (to_size_t i <? to_size_t (length v - 1)); [|reflexivity].
  destruct (int_result (i + 1)); cbn [bind]; try reflexivity.
  rewrite sort_vector_inner_ext.
  destruct (sort_vector_inner _ _ _ _ _ _); cbn [bind]; try reflexivity.
  destruct (swap_elems _ _ _); cbn [bind]; try reflexivity.
  apply IH.
Qed.

Lemma sort_vector_ext v : sort_vector v compare = sort_vector v compare'.
Proof. apply sort_vector_outer_ext. Qed.

End SortSignal.

(** C10.  For every valid vector with [int] indices and length at least 1,
    and every comparison function, [sort_vector] returns with the length,
    the capacity and the element size unchanged, and the first [length]
    elements after sorting are a permutation of those before: as multisets
    of byte strings they are equal. *)
Theorem sort_vector_permutes (v : Vector) (compare : list byte -> list byte -> Z) :
  valid v -> int_indexed v -> 1 <= length v ->
  exists v',
    sort_vector v compare = Ok v' /\
    length v' = length v /\ capacity v' = capacity v /\
    elem_size v' = elem_size v /\
    Permutation (elems v') (elems v).
Proof.
  intros Hv Hint Hne. pose proof Hint as Hint'. unfold int_indexed in Hint'.
  unfold sort_vector.
  rewrite to_size_t_small by (unfold INT_MAX, SIZE_MAX in *; lia).
  destruct (sort_vector_outer_spec compare (S (Z.to_nat (length v - 1))) v 0)
    as (v' & Hrun & Hv' & Hes & Hl & Hc & Hp); try assumption; try lia.
  exists v'. conjs; assumption.
Qed.

Lemma sort_vector_permutes_witness :
  exists v',
    sort_vector three_bytes descending = Ok v' /\
    length v' = length three_bytes /\ capacity v' = capacity three_bytes /\
    elem_size v' = elem_size three_bytes /\
    Permutation (elems v') (elems three_bytes).
Proof.
  apply (sort_vector_permutes three_bytes descending).
  - valid_by_computation.
  - unfold int_indexed, INT_MAX. cbn. lia.
  - cbn. lia.
Defined.

(** ** Expansion and appending *)

Section Expand.
Variables (realloc_ok : Z -> bool) (uninit : nat -> byte).

Lemma expand_vector_ok (v : Vector) (new_size : Z) :
  valid v -> 0 <= new_size ->
  elem_size v * new_size <= SIZE_MAX ->
  realloc_ok (elem_size v * new_size) = true ->
  exists v',
    expand_vector realloc_ok uninit v new_size = Ok v' /\
    capacity v' = new_size /\ elem_size v' = elem_size v /\ length v' = length v /\
    len (array v') = new_size * elem_size v /\
    firstn (Z.to_nat (Z.min (capacity v) new_size * elem_size v)) (array v') =
    firstn (Z.to_nat (Z.min (capacity v) new_size * elem_size v)) (array v).
Proof.
  intros Hv Hnew Hfit Hok. destruct Hv as [Hes Hlen Hcap Hbytes Hbuf].
  unfold expand_vector, realloc.
  rewrite to_size_t_small by nia. rewrite Hok.
  eexists. split; [reflexivity|]. cbn [capacity elem_size length array].
  conjs; try reflexivity.
  - rewrite length_firstn, length_app, length_map, length_seq. lia.
  - rewrite firstn_firstn, firstn_app.
    replace (Nat.min _ _)
      with (Z.to_nat (Z.min (capacity v) new_size * elem_size v)) by nia.
    replace (_ - _)%nat with 0%nat by nia.
    simpl. apply app_nil_r.
Qed.

Lemma push_back_spec (v : Vector) (e : list byte) :
  valid v -> length v <= INT_MAX -> 1 <= capacity v -> elem_size v <= len e ->
  (length v = capacity v ->
   2 * capacity v * Z.max 1 (elem_size v) <= SIZE_MAX /\
   realloc_ok (elem_size v * (2 * capacity v)) = true) ->
  exists v',
    push_back realloc_ok uninit v (object e) = Ok v' /\ valid v' /\
    elem_size v' = elem_size v /\ length v' = length v + 1 /\
    capacity v' = (if length v <? capacity v then capacity v else 2 * capacity v).
Proof.
  intros Hv Hint Hcap1 He Hfull.
  pose proof (valid_length v Hv) as Hlen. pose proof (valid_elem_size v Hv) as Hes.
  pose proof (valid_capacity v Hv) as Hcap.
  unfold push_back. destruct (length v <? capacity v) eqn:Elt.
  - apply Z.ltb_lt in Elt.
    rewrite Z.geb_leb.
    replace (capacity v <=? length v) with false by (symmetry; apply Z.leb_gt; lia).
    cbn [bind]. rewrite to_int_small by (unfold INT_MIN, INT_MAX in *; lia).
    rewrite set_elem_object by (assumption || lia). cbn [bind].
    set (b := firstn _ e).
    assert (Hb : len b = elem_size v) by (unfold b; rewrite length_firstn; lia).
    change (length (put v (length v) b)) with (length v).
    rewrite to_size_t_small by (unfold INT_MAX, SIZE_MAX in *; lia).
    eexists. split; [reflexivity|]. conjs; try reflexivity.
    apply valid_set_length.
    + apply valid_put; assumption || lia.
    + change (capacity (put v (length v) b)) with (capacity v). lia.
  - apply Z.ltb_ge in Elt. assert (Heq : length v = capacity v) by lia.
    destruct (Hfull Heq) as [Hfit Hok].
    rewrite Z.geb_leb.
    replace (capacity v <=? length v) with true by (symmetry; apply Z.leb_le; lia).
    rewrite to_size_t_small by nia.
    destruct (expand_vector_ok v (capacity v * 2))
      as (v1 & Hrun & Hc1 & Hes1 & Hl1 & Hb1 & _); try assumption; try nia.
    { now replace (capacity v * 2) with (2 * capacity v) by lia. }
    rewrite Hrun. cbn [bind].
    assert (Hv1 : valid v1).
    { constructor; rewrite ?Hc1, ?Hes1, ?Hl1; try lia; try nia. }
    rewrite Hl1. rewrite to_int_small by (unfold INT_MIN, INT_MAX in *; lia).
    rewrite (set_elem_object v1 Hv1) by (rewrite ?Hc1, ?Hes1; lia). cbn [bind].
    set (b := firstn _ e).
    assert (Hb : len b = elem_size v1) by (unfold b; rewrite length_firstn; lia).
    change (length (put v1 (length v) b)) with (length v1). rewrite Hl1.
    rewrite to_size_t_small by (unfold INT_MAX, SIZE_MAX in *; lia).
    eexists. split; [reflexivity|]. conjs; try reflexivity.
    + apply valid_set_length.
      * apply valid_put; try assumption. rewrite Hc1. lia.
      * change (capacity (put v1 (length v) b)) with (capacity v1). rewrite Hc1. lia.
    + cbn [elem_size set_length put set_array]. exact Hes1.
    + cbn [capacity set_length put set_array]. lia.
Qed.

Lemma push_all_app (v : Vector) (l1 l2 : list (list byte)) :
  push_all realloc_ok uninit v (l1 ++ l2) =
  (v' <- push_all realloc_ok uninit v l1 ;; push_all realloc_ok uninit v' l2).
Proof.
  revert v. induction l1 as [|e l1 IH]; intros v; cbn [push_all app bind].
  - reflexivity.
  - destruct (push_back realloc_ok uninit v (object e)); cbn [bind]; auto.
Qed.

End Expand.

(** C9, as the code has it.  For every valid vector and every requested
    size [new_size] for which [elem_size * new_size] is a value of
    [size_t], whether or not it is below the capacity or a power of two, a
    call of [expand_vector] whose [realloc] succeeds returns with the
    capacity exactly [new_size], the new buffer of [new_size * elem_size]
    bytes, and its first [min(capacity, new_size) * elem_size] bytes those
    of the old buffer; the size is neither rounded nor rejected: the call
    leaves only through [exit], and only when [realloc] fails. *)
Theorem expand_vector_exact
    (realloc_ok : Z -> bool) (uninit : nat -> byte) (v : Vector) (new_size : Z) :
  valid v -> 0 <= new_size ->
  elem_size v * new_size <= SIZE_MAX ->
  (realloc_ok (elem_size v * new_size) = true ->
   exists v',
     expand_vector realloc_ok uninit v new_size = Ok v' /\
     capacity v' = new_size /\ elem_size v' = elem_size v /\
     length v' = length v /\
     len (array v') = new_size * elem_size v /\
     firstn (Z.to_nat (Z.min (capacity v) new_size * elem_size v)) (array v') =
     firstn (Z.to_nat (Z.min (capacity v) new_size * elem_size v)) (array v)) /\
  (realloc_ok (elem_size v * new_size) = false ->
   expand_vector realloc_ok uninit v new_size = Exited 1 expansion_failed).
Proof.
  intros Hv Hnew Hfit. split.
  - intros Hok. now apply expand_vector_ok.
  - intros Hfail. pose proof (valid_elem_size v Hv) as Hes.
    unfold expand_vector, realloc.
    rewrite to_size_t_small by nia. rewrite Hfail. reflexivity.
Qed.

Lemma expand_vector_exact_witness :
  (realloc_succeeds (elem_size three_bytes * 3) = true ->
   exists v',
     expand_vector realloc_succeeds zero_filled three_bytes 3 = Ok v' /\
     capacity v' = 3 /\ elem_size v' = elem_size three_bytes /\
     length v' = length three_bytes /\
     len (array v') = 3 * elem_size three_bytes /\
     firstn (Z.to_nat (Z.min (capacity three_bytes) 3 * elem_size three_bytes))
       (array v') =
     firstn (Z.to_nat (Z.min (capacity three_bytes) 3 * elem_size three_bytes))
       (array three_bytes)) /\
  (realloc_succeeds (elem_size three_bytes * 3) = false ->
   expand_vector realloc_succeeds zero_filled three_bytes 3 =
   Exited 1 expansion_failed).
Proof.
  apply (expand_vector_exact realloc_succeeds zero_filled three_bytes 3).
  - valid_by_computation.
  - lia.
  - vm_compute. discriminate.
Defined.

(** Sixteen two-byte slots expanded to [2^63 + 1] slots: the byte count
    wraps around to 2, [realloc] shrinks the buffer to two bytes, and the
    capacity is set to [2^63 + 1]; the 32 bytes of the old buffer are not
    preserved. *)
Lemma expand_vector_wraps :
  let v := create_vector exact_ceil_log2 2 in
  let new_size := 9223372036854775809 in
  valid v /\
  Z.min (capacity v) new_size * elem_size v = 32 /\
  exists v',
    expand_vector realloc_succeeds zero_filled v new_size = Ok v' /\
    capacity v' = new_size /\
    len (array v') = 2 /\
    firstn 32 (array v') <> firstn 32 (array v).
Proof.
  cbv zeta. split; [valid_by_computation|]. split; [reflexivity|].
  eexists. split; [vm_compute; reflexivity|].
  split; [reflexivity|]. split; [reflexivity|].
  vm_compute. discriminate.
Qed.

Lemma firstn_snoc {A} (l : list A) (k : nat) (d : A) :
  (k < List.length l)%nat -> firstn (S k) l = firstn k l ++ [nth k l d].
Proof.
  revert k. induction l as [|x l IH]; intros k Hk; simpl in Hk; [lia|].
  destruct k as [|k]; [reflexivity|].
  cbn [firstn nth app]. f_equal. apply IH. lia.
Qed.

Section Appends.
Variables (realloc_ok : Z -> bool) (uninit : nat -> byte).
Variables (v0 : Vector) (elements : list (list byte)).
Hypothesis Hv0 : valid v0.
Hypothesis Hempty : length v0 = 0.
Hypothesis Hpow : is_pow2 (capacity v0).
Hypothesis Hint : len elements <= INT_MAX + 1.
Hypothesis Hfit :
  Z.max (capacity v0) (2 * len elements) * Z.max 1 (elem_size v0) <= SIZE_MAX.
Hypothesis Halloc : forall n, 0 <= n <= SIZE_MAX -> realloc_ok n = true.
Hypothesis Helements : Forall (fun e => elem_size v0 <= len e) elements.

Lemma append_step (k : nat) (vk : Vector) :
  (k < List.length elements)%nat -> appended v0 k vk ->
  exists vk',
    push_back realloc_ok uninit vk (object (nth k elements [])) = Ok vk' /\
    appended v0 (S k) vk' /\
    least_pow2_above (capacity vk') (Z.of_nat (S k)) (capacity vk) /\
    capacity vk <= capacity vk'.
Proof.
  intros Hk (Hvk & Hes & Hl & Hp & Hbound).
  pose proof (is_pow2_pos _ Hp) as Hpos.
  pose proof (valid_elem_size vk Hvk) as Hes0.
  pose proof (valid_length vk Hvk) as Hlen.
  assert (He : elem_size vk <= len (nth k elements [])).
  { rewrite Hes. rewrite Forall_forall in Helements.
    apply Helements, nth_In. exact Hk. }
  destruct (push_back_spec realloc_ok uninit vk (nth k elements []))
    as (vk' & Hrun & Hvk' & Hes' & Hl' & Hc'); try assumption; try lia.
  { intros Hfull.
    assert (2 * capacity vk * Z.max 1 (elem_size vk) <= SIZE_MAX).
    { rewrite Hes.
      assert (2 * capacity vk <= Z.max (capacity v0) (2 * len elements)) by lia.
      nia. }
    split; [assumption|]. apply Halloc. nia. }
  exists vk'. split; [exact Hrun|].
  destruct (length vk <? capacity vk) eqn:Elt.
  - apply Z.ltb_lt in Elt. rewrite Hc'. conjs; try lia.
    + unfold appended. conjs; try assumption; try congruence; lia.
    + replace (Z.of_nat (S k)) with (length vk + 1) by lia.
      apply least_pow2_unchanged; [assumption | lia].
  - apply Z.ltb_ge in Elt. rewrite Hc'. conjs; try lia.
    + unfold appended. conjs; try assumption; try congruence; try lia.
      rewrite Hc'. destruct Hp as (e & He0 & ->).
      exists (e + 1). split; [lia|]. rewrite Z.pow_add_r by lia. lia.
    + replace (Z.of_nat (S k)) with (capacity vk + 1) by lia.
      now apply least_pow2_doubled.
Qed.

Lemma appends_prefix (k : nat) :
  (k <= List.length elements)%nat ->
  exists vk,
    push_all realloc_ok uninit v0 (firstn k elements) = Ok vk /\ appended v0 k vk.
Proof.
  induction k as [|k IH]; intros Hk.
  - exists v0. split; [reflexivity|].
    unfold appended. conjs; try assumption; try reflexivity; lia.
  - destruct IH as (vk & Hrun & Hinv); [lia|].
    destruct (append_step k vk) as (vk' & Hpush & Hinv' & _); [lia | assumption |].
    exists vk'. split; [|assumption].
    rewrite (firstn_snoc elements k []) by lia.
    rewrite push_all_app, Hrun. cbn [bind push_all]. rewrite Hpush. reflexivity.
Qed.

Lemma appends_all :
  exists vN,
    push_all realloc_ok uninit v0 elements = Ok vN /\ length vN = len elements.
Proof.
  destruct (appends_prefix (List.length elements)) as (vN & Hrun & Hinv); [lia|].
  rewrite firstn_all in Hrun. exists vN. split; [assumption|]. apply Hinv.
Qed.

Lemma appends_capacity (k : nat) :
  (k < List.length elements)%nat ->
  exists v_prev v_next,
    push_all realloc_ok uninit v0 (firstn k elements) = Ok v_prev /\
    push_all realloc_ok uninit v0 (firstn (S k) elements) = Ok v_next /\
    length v_next = Z.of_nat (S k) /\
    least_pow2_above (capacity v_next) (length v_next) (capacity v_prev) /\
    capacity v_prev <= capacity v_next.
Proof.
  intros Hk.
  destruct (appends_prefix k) as (vk & Hrun & Hinv); [lia|].
  destruct (append_step k vk) as (vk' & Hpush & Hinv' & Hleast & Hmono);
    [lia | assumption |].
  assert (Hl' : length vk' = Z.of_nat (S k)) by apply Hinv'.
  exists vk, vk'. conjs; try assumption.
  - rewrite (firstn_snoc elements k []) by lia.
    rewrite push_all_app, Hrun. cbn [bind push_all]. rewrite Hpush. reflexivity.
  - rewrite Hl'. assumption.
Qed.

End Appends.

(** C3.  Take a vector fresh from [create_vector_with_capacity] (of which
    [create_vector] is the case of a request for 16) and append [N]
    elements to it, in an environment where the library's logarithm is not
    negative, [realloc] does not fail, no size computed on the way exceeds
    [SIZE_MAX], and the indices written are [int]s.  Then all [N] appends
    return and the length is [N]; and at every step, the capacity after the
    append is the smallest power of two that is at least the length after
    it and at least the capacity before it, so the capacity never
    decreases. *)
Theorem push_back_sequence
    (ceil_log2 : Z -> Z) (realloc_ok : Z -> bool) (uninit : nat -> byte)
    (es min_capacity : Z) (elements : list (list byte)) :
  let v0 := create_vector_with_capacity ceil_log2 es min_capacity in
  let N := len elements in
  0 <= es ->
  (2 < to_int min_capacity -> 0 <= ceil_log2 (to_int min_capacity)) ->
  N <= INT_MAX + 1 ->
  Z.max (capacity v0) (2 * N) * Z.max 1 es <= SIZE_MAX ->
  (forall n, 0 <= n <= SIZE_MAX -> realloc_ok n = true) ->
  Forall (fun e => es <= len e) elements ->
  (exists vN, push_all realloc_ok uninit v0 elements = Ok vN /\ length vN = N) /\
  forall k : nat, (k < List.length elements)%nat ->
    exists v_prev v_next,
      push_all realloc_ok uninit v0 (firstn k elements) = Ok v_prev /\
      push_all realloc_ok uninit v0 (firstn (S k) elements) = Ok v_next /\
      length v_next = Z.of_nat (S k) /\
      least_pow2_above (capacity v_next) (length v_next) (capacity v_prev) /\
      capacity v_prev <= capacity v_next.
Proof.
  intros v0 N Hes Hlog Hint Hfit Halloc Helements.
  assert (Hpow : is_pow2 (capacity v0))
    by now apply is_pow2_create_vector_with_capacity.
  pose proof (is_pow2_pos _ Hpow) as Hpos.
  assert (Hv0 : valid v0).
  { apply valid_create_vector_with_capacity;
      [assumption | fold v0; nia | fold v0; nia]. }
  split.
  - apply appends_all; try assumption; reflexivity.
  - intros k Hk. apply appends_capacity; try assumption; reflexivity.
Qed.

Lemma push_back_sequence_witness :
  let elements := map int_bytes [1; 2; 3] in
  let v0 := create_vector_with_capacity exact_ceil_log2 4 1 in
  (exists vN,
     push_all realloc_succeeds zero_filled v0 elements = Ok vN /\
     length vN = len elements) /\
  forall k : nat, (k < List.length elements)%nat ->
    exists v_prev v_next,
      push_all realloc_succeeds zero_filled v0 (firstn k elements) = Ok v_prev /\
      push_all realloc_succeeds zero_filled v0 (firstn (S k) elements) = Ok v_next /\
      length v_next = Z.of_nat (S k) /\
      least_pow2_above (capacity v_next) (length v_next) (capacity v_prev) /\
      capacity v_prev <= capacity v_next.
Proof.
  apply (push_back_sequence exact_ceil_log2 realloc_succeeds zero_filled 4 1
           (map int_bytes [1; 2; 3])).
  - lia.
  - vm_compute. intros H. discriminate H.
  - vm_compute. discriminate.
  - vm_compute. discriminate.
  - intros n _. reflexivity.
  - repeat constructor; vm_compute; discriminate.
Defined.

(** ** The scenario of five integers *)

Lemma descending_signal a b : descending a b = 1 <-> int_value a < int_value b.
Proof.
  unfold descending.
  destruct (Z.ltb_spec (int_value a) (int_value b)); split; intros; lia.
Qed.

(** C2.  In an environment where the library's logarithm of 16 is 4: a
    vector of 4-byte integers fresh from [create_vector], to which the
    integers 1, 2, 3, 4, 5 are appended in order, has length 5 and capacity
    16, holds 1 at index 0 and 5 at index 4; sorted with a comparison
    function that answers 1 exactly when its first argument is the smaller
    integer, it holds 5, 4, 3, 2, 1; and with index 2 then removed, it
    holds 5, 4, 2, 1 and has length 4. *)
Theorem five_ints_scenario
    (ceil_log2 : Z -> Z) (realloc_ok : Z -> bool) (uninit : nat -> byte)
    (compare : list byte -> list byte -> Z) :
  ceil_log2 16 = 4 ->
  (forall a b, compare a b = 1 <-> int_value a < int_value b) ->
  exists a a_sorted a_removed,
    push_all realloc_ok uninit (create_vector ceil_log2 4)
      (map int_bytes [1; 2; 3; 4; 5]) = Ok a /\
    length a = 5 /\ capacity a = 16 /\
    read a (get_elem a 0) (elem_size a) = Ok (int_bytes 1) /\
    read a (get_elem a 4) (elem_size a) = Ok (int_bytes 5) /\
    sort_vector a compare = Ok a_sorted /\
    elems a_sorted = map int_bytes [5; 4; 3; 2; 1] /\
    remove_elem a_sorted 2 = Ok a_removed /\
    elems a_removed = map int_bytes [5; 4; 2; 1] /\
    length a_removed = 4.
Proof.
  intros Hlog Hcompare.
  rewrite create_vector_16 by assumption.
  assert (Hsignal : forall a b, (compare a b =? 1) = (descending a b =? 1)).
  { intros a b. unfold descending.
    destruct (Z.ltb_spec (int_value a) (int_value b)) as [Hlt | Hge].
    - apply Hcompare in Hlt. rewrite Hlt. reflexivity.
    - cbn. apply Z.eqb_neq. intros Heq. apply Hcompare in Heq. lia. }
  eexists. eexists. eexists.
  split; [vm_compute; reflexivity|].
  split; [reflexivity|]. split; [reflexivity|].
  split; [vm_compute; reflexivity|]. split; [vm_compute; reflexivity|].
  split; [rewrite (sort_vector_ext compare descending Hsignal);
          vm_compute; reflexivity|].
  split; [vm_compute; reflexivity|].
  split; [vm_compute; reflexivity|].
  split; vm_compute; reflexivity.
Qed.

Lemma five_ints_scenario_witness :
  exists a a_sorted a_removed,
    push_all realloc_succeeds zero_filled (create_vector exact_ceil_log2 4)
      (map int_bytes [1; 2; 3; 4; 5]) = Ok a /\
    length a = 5 /\ capacity a = 16 /\
    read a (get_elem a 0) (elem_size a) = Ok (int_bytes 1) /\
    read a (get_elem a 4) (elem_size a) = Ok (int_bytes 5) /\
    sort_vector a descending = Ok a_sorted /\
    elems a_sorted = map int_bytes [5; 4; 3; 2; 1] /\
    remove_elem a_sorted 2 = Ok a_removed /\
    elems a_removed = map int_bytes [5; 4; 2; 1] /\
    length a_removed = 4.
Proof.
  apply (five_ints_scenario exact_ceil_log2 realloc_succeeds zero_filled descending).
  - reflexivity.
  - exact descending_signal.
Defined.

(** * Further properties of the operations *)

(** ** Construction *)

Lemma skipn_repeat {A} (x : A) (off n : nat) :
  skipn off (repeat x n) = repeat x (n - off).
Proof.
  revert n. induction off as [|off IH]; intros n.
  - now rewrite Nat.sub_0_r.
  - destruct n as [|n]; [reflexivity|]. simpl. apply IH.
Qed.

Lemma firstn_repeat {A} (x : A) (k n : nat) :
  (k <= n)%nat -> firstn k (repeat x n) = repeat x k.
Proof.
  revert n. induction k as [|k IH]; intros n Hk; [reflexivity|].
  destruct n as [|n]; [lia|]. simpl. f_equal. apply IH. lia.
Qed.

Lemma chunk_repeat {A} (x : A) (off k n : nat) :
  (off + k <= n)%nat -> firstn k (skipn off (repeat x n)) = repeat x k.
Proof. intros H. rewrite skipn_repeat. apply firstn_repeat. lia. Qed.

Lemma elems_nil v : length v = 0 -> elems v = [].
Proof. intros H. unfold elems, indices. rewrite H. reflexivity. Qed.

(** X1.  A vector fresh from [create_vector_with_capacity], for a
    capacity and a byte count that are values of [size_t], satisfies the
    invariants of the data model, is empty ([is_empty] answers [TRUE], no
    element), and every one of its [capacity] slots holds zero bytes. *)
Theorem create_vector_with_capacity_fresh
    (ceil_log2 : Z -> Z) (es initial_size : Z) :
  let v := create_vector_with_capacity ceil_log2 es initial_size in
  0 <= es -> capacity v <= SIZE_MAX -> capacity v * es <= SIZE_MAX ->
  valid v /\ elem_size v = es /\ is_empty v = TRUE /\ elems v = [] /\
  forall i, 0 <= i < capacity v -> slot v i = zero_slot v.
Proof.
  intros v Hes Hcap Hbytes.
  assert (Hv : valid v) by now apply valid_create_vector_with_capacity.
  conjs; try reflexivity; try assumption.
  intros i Hi. destruct (slot_offset v Hv i Hi) as (_ & H0 & H1).
  unfold slot, zero_slot.
  change (array v) with (calloc (capacity v) es) in *.
  change (elem_size v) with es in *.
  unfold calloc in *. rewrite repeat_length in H1.
  apply chunk_repeat. lia.
Qed.

Lemma create_vector_with_capacity_fresh_witness :
  let v := create_vector exact_ceil_log2 4 in
  valid v /\ elem_size v = 4 /\ is_empty v = TRUE /\ elems v = [] /\
  forall i, 0 <= i < capacity v -> slot v i = zero_slot v.
Proof.
  apply (create_vector_with_capacity_fresh exact_ceil_log2 4 16).
  - lia.
  - vm_compute. discriminate.
  - vm_compute. discriminate.
Defined.

Lemma to_int_high n :
  2147483648 <= n <= 4294967295 -> to_int n = n - 4294967296.
Proof.
  intros H. unfold to_int.
  replace (n + 2147483648) with (n - 2147483648 + 1 * 4294967296) by lia.
  rewrite Z_mod_plus_full, Z.mod_small by lia. lia.
Qed.

(** X2.  The requested capacity reaches [next_pow_2] through an [int]
    parameter: a request from [2^31] to [2^32 - 1] arrives there as a
    negative number, and the vector gets capacity 2, whatever the
    logarithm. *)
Theorem create_vector_with_capacity_truncates
    (ceil_log2 : Z -> Z) (es initial_size : Z) :
  2147483648 <= initial_size <= 4294967295 ->
  capacity (create_vector_with_capacity ceil_log2 es initial_size) = 2.
Proof.
  intros H. unfold create_vector_with_capacity, next_pow_2, pow_2. cbn [capacity].
  rewrite to_int_high by assumption.
  replace (initial_size - 4294967296 <=? 2) with true
    by (symmetry; apply Z.leb_le; lia).
  reflexivity.
Qed.

Lemma create_vector_with_capacity_truncates_witness :
  capacity (create_vector_with_capacity exact_ceil_log2 1 3000000000) = 2.
Proof.
  apply (create_vector_with_capacity_truncates exact_ceil_log2 1 3000000000). lia.
Defined.

(** ** Element access *)

(** X3.  In a valid vector, [set_elem] at an index below the capacity
    (valid or not) followed by a read through [get_elem] at that index
    gives back the [elem_size] bytes written; every other slot reads as
    before, and the length, the capacity and the element size are
    unchanged. *)
Theorem set_elem_then_get (v : Vector) (i : Z) (bytes : list byte) :
  valid v -> 0 <= i < capacity v -> elem_size v <= len bytes ->
  exists v',
    set_elem v i (object bytes) = Ok v' /\
    read v' (get_elem v' i) (elem_size v') = Ok (elem_of v bytes) /\
    (forall j, 0 <= j < capacity v -> j <> i ->
       read v' (get_elem v' j) (elem_size v') = read v (get_elem v j) (elem_size v)) /\
    valid v' /\ elem_size v' = elem_size v /\ length v' = length v /\
    capacity v' = capacity v.
Proof.
  intros Hv Hi Hb. pose proof (valid_elem_size v Hv) as Hes.
  rewrite set_elem_object by assumption.
  set (b := firstn _ bytes).
  assert (Hlen : len b = elem_size v) by (unfold b; rewrite length_firstn; lia).
  assert (Hv' : valid (put v i b)) by now apply valid_put.
  eexists. split; [reflexivity|]. conjs; try reflexivity; try assumption.
  - rewrite read_get_elem by assumption. f_equal. now apply slot_put_same.
  - intros j Hj Hne. rewrite !read_get_elem by assumption.
    f_equal. now apply slot_put_other.
Qed.

Lemma set_elem_then_get_witness :
  exists v',
    set_elem three_bytes 3 (object [x07]) = Ok v' /\
    read v' (get_elem v' 3) (elem_size v') = Ok (elem_of three_bytes [x07]) /\
    (forall j, 0 <= j < capacity three_bytes -> j <> 3 ->
       read v' (get_elem v' j) (elem_size v') =
       read three_bytes (get_elem three_bytes j) (elem_size three_bytes)) /\
    valid v' /\ elem_size v' = elem_size three_bytes /\
    length v' = length three_bytes /\ capacity v' = capacity three_bytes.
Proof.
  apply (set_elem_then_get three_bytes 3 [x07]).
  - valid_by_computation.
  - cbn. lia.
  - cbn. lia.
Defined.

(** X4.  There is no bounds check and no growth in [set_elem] and
    [get_elem]: in a valid vector of non-empty elements, writing or reading
    at an index at or past the capacity (with a byte offset that is a value
    of [size_t]) is an access outside the buffer. *)
Theorem set_elem_beyond_capacity (v : Vector) (i : Z) (bytes : list byte) :
  valid v -> 0 < elem_size v -> capacity v <= i -> i * elem_size v <= SIZE_MAX ->
  elem_size v <= len bytes ->
  set_elem v i (object bytes) = Undefined /\
  read v (get_elem v i) (elem_size v) = Undefined.
Proof.
  intros Hv Hes Hi Hfit Hb. destruct Hv as [_ Hlen Hcap Hbytes Hbuf].
  assert (Hoff : to_size_t (to_size_t i * elem_size v) = i * elem_size v).
  { rewrite (to_size_t_small i) by nia. apply to_size_t_small. nia. }
  assert (Hout : (i * elem_size v + elem_size v <=? len (array v)) = false)
    by (apply Z.leb_gt; nia).
  split.
  - unfold set_elem, memcpy. rewrite Hoff. cbn [overlaps read]. unfold load.
    replace (0 <=? elem_size v) with true by (symmetry; apply Z.leb_le; lia).
    replace (0 + elem_size v <=? len bytes) with true
      by (symmetry; apply Z.leb_le; lia).
    cbn [andb Z.leb Z.compare bind]. unfold store.
    change (skipn (Z.to_nat 0) bytes) with bytes.
    rewrite length_firstn.
    replace (Z.of_nat (Nat.min (Z.to_nat (elem_size v)) (List.length bytes)))
      with (elem_size v) by lia.
    rewrite Hout, andb_false_r. reflexivity.
  - unfold get_elem, read, load. rewrite Hoff, Hout, andb_false_r. reflexivity.
Qed.

Lemma set_elem_beyond_capacity_witness :
  set_elem three_bytes 4 (object [x07]) = Undefined /\
  read three_bytes (get_elem three_bytes 4) (elem_size three_bytes) = Undefined.
Proof.
  apply (set_elem_beyond_capacity three_bytes 4 [x07]).
  - valid_by_computation.
  - cbn. lia.
  - cbn. lia.
  - vm_compute. discriminate.
  - cbn. lia.
Defined.

(** ** Exchange *)

(** X5.  In a valid vector, [swap_elems] at two valid indices returns with
    the contents of the two slots exchanged, every other slot of the
    buffer as before, and the length, capacity and element size
    unchanged. *)
Theorem swap_elems_exchanges (v : Vector) (i j : Z) :
  valid v -> 0 <= i < length v -> 0 <= j < length v ->
  exists v',
    swap_elems v i j = Ok v' /\
    slot v' i = slot v j /\ slot v' j = slot v i /\
    (forall k, 0 <= k < capacity v -> k <> i -> k <> j -> slot v' k = slot v k) /\
    valid v' /\ elem_size v' = elem_size v /\ length v' = length v /\
    capacity v' = capacity v.
Proof.
  intros Hv Hi Hj. pose proof (valid_length v Hv) as Hlen.
  destruct (swap_elems_spec v i j Hv Hi Hj)
    as (v' & Hrun & Hv' & Hes & Hl & Hc & Hslots).
  exists v'. conjs; try assumption.
  - rewrite Hslots by lia. unfold exchanged. now rewrite Z.eqb_refl.
  - rewrite Hslots by lia. unfold exchanged.
    destruct (Z.eqb_spec j i) as [-> | _]; [reflexivity|]. now rewrite Z.eqb_refl.
  - intros k Hk Hki Hkj. rewrite Hslots by lia. unfold exchanged.
    destruct (Z.eqb_spec k i); [contradiction|].
    destruct (Z.eqb_spec k j); [contradiction | reflexivity].
Qed.

Lemma swap_elems_exchanges_witness :
  exists v',
    swap_elems three_bytes 0 2 = Ok v' /\
    slot v' 0 = slot three_bytes 2 /\ slot v' 2 = slot three_bytes 0 /\
    (forall k, 0 <= k < capacity three_bytes -> k <> 0 -> k <> 2 ->
       slot v' k = slot three_bytes k) /\
    valid v' /\ elem_size v' = elem_size three_bytes /\
    length v' = length three_bytes /\ capacity v' = capacity three_bytes.
Proof.
  apply (swap_elems_exchanges three_bytes 0 2).
  - valid_by_computation.
  - cbn. lia.
  - cbn. lia.
Defined.

Lemma nth_error_slot (v : Vector) (k : Z) (r : nat) :
  0 <= k -> 0 <= elem_size v -> (r < Z.to_nat (elem_size v))%nat ->
  nth_error (slot v k) r =
  nth_error (array v) (Z.to_nat k * Z.to_nat (elem_size v) + r).
Proof.
  intros Hk Hes Hr. unfold slot.
  rewrite nth_error_firstn.
  replace (r <? Z.to_nat (elem_size v))%nat with true
    by (symmetry; apply Nat.ltb_lt; lia).
  rewrite nth_error_skipn. f_equal. nia.
Qed.

(** Two valid vectors of the same shape whose slots agree have the same
    buffer. *)
Lemma array_ext (v w : Vector) :
  valid v -> valid w ->
  elem_size w = elem_size v -> capacity w = capacity v ->
  (forall k, 0 <= k < capacity v -> slot w k = slot v k) ->
  array w = array v.
Proof.
  intros Hv Hw Hes Hc Hslots.
  pose proof (valid_elem_size v Hv) as Hes0.
  pose proof (valid_buffer v Hv) as Hbv. pose proof (valid_buffer w Hw) as Hbw.
  rewrite Hes, Hc in Hbw.
  apply nth_error_ext. intros p.
  destruct (Nat.lt_ge_cases p (List.length (array v))) as [Hp | Hp].
  - set (e := Z.to_nat (elem_size v)).
    assert (Hpos : 0 < elem_size v).
    { destruct (Z.eq_dec (elem_size v) 0) as [H0 | H0]; [|lia].
      rewrite H0, Z.mul_0_r in Hbv. lia. }
    assert (He : (0 < e)%nat) by (unfold e; lia).
    pose proof (Nat.div_mod_eq p e) as Hdiv.
    pose proof (Nat.mod_upper_bound p e ltac:(lia)) as Hmod.
    set (k := Z.of_nat (p / e)).
    assert (Hk : 0 <= k < capacity v).
    { unfold k. split; [lia|].
      assert (Z.of_nat e = elem_size v) by (unfold e; lia).
      assert (Z.of_nat p < capacity v * Z.of_nat e) by lia.
      assert (Z.of_nat p = Z.of_nat e * Z.of_nat (p / e) + Z.of_nat (p mod e))
        by lia.
      nia. }
    replace p with (Z.to_nat k * e + p mod e)%nat at 1 2 by (unfold k; lia).
    unfold e at 1 2.
    rewrite <- (nth_error_slot v) by (fold e; lia).
    rewrite <- Hes at 1.
    rewrite <- (nth_error_slot w) by (rewrite ?Hes; fold e; lia).
    now rewrite Hslots.
  - rewrite (proj2 (nth_error_None (array v) p)) by lia.
    apply nth_error_None. lia.
Qed.

(** X6.  In a valid vector, [swap_elems] at two valid indices is undone by
    the same call: the second exchange returns the original vector, byte
    for byte. *)
Theorem swap_elems_twice (v : Vector) (i j : Z) :
  valid v -> 0 <= i < length v -> 0 <= j < length v ->
  exists v',
    swap_elems v i j = Ok v' /\ swap_elems v' i j = Ok v.
Proof.
  intros Hv Hi Hj.
  destruct (swap_elems_spec v i j Hv Hi Hj)
    as (v' & Hrun & Hv' & Hes & Hl & Hc & Hslots).
  destruct (swap_elems_spec v' i j Hv')
    as (v'' & Hrun' & Hv'' & Hes' & Hl' & Hc' & Hslots'); try lia.
  exists v'. split; [exact Hrun|]. rewrite Hrun'. f_equal.
  assert (Harr : array v'' = array v).
  { apply array_ext; try assumption; try congruence.
    intros k Hk. rewrite Hslots' by lia.
    pose proof (valid_length v Hv) as Hlen.
    rewrite Hslots by (apply exchanged_range; lia).
    now rewrite exchanged_involutive. }
  destruct v'' as [a'' e'' l'' c''], v as [a e l c].
  cbn in *. congruence.
Qed.

Lemma swap_elems_twice_witness :
  exists v',
    swap_elems three_bytes 0 2 = Ok v' /\ swap_elems v' 0 2 = Ok three_bytes.
Proof.
  apply (swap_elems_twice three_bytes 0 2).
  - valid_by_computation.
  - cbn. lia.
  - cbn. lia.
Defined.

(** ** Growth and appending *)

Lemma chunk_of_prefix (a b : list byte) (K off n : nat) :
  firstn K a = firstn K b -> (off + n <= K)%nat ->
  firstn n (skipn off a) = firstn n (skipn off b).
Proof.
  intros Hpre Hin.
  assert (Hcut : forall l : list byte,
            firstn n (skipn off l) = firstn n (skipn off (firstn K l))).
  { intros l. rewrite skipn_firstn_comm, firstn_firstn.
    f_equal. lia. }
  rewrite (Hcut a), (Hcut b), Hpre. reflexivity.
Qed.

Lemma Zseq_snoc start n : Zseq start (S n) = Zseq start n ++ [start + Z.of_nat n].
Proof.
  revert start. induction n as [|n IH]; intros start.
  - simpl. now rewrite Z.add_0_r.
  - change (Zseq start (S (S n))) with (start :: Zseq (start + 1) (S n)).
    rewrite IH. simpl. do 3 f_equal. lia.
Qed.

Lemma elems_ext (v w : Vector) :
  length w = length v ->
  (forall j, 0 <= j < length v -> slot w j = slot v j) ->
  elems w = elems v.
Proof.
  intros Hl Hslots. unfold elems, indices. rewrite Hl.
  apply map_ext_in. intros j Hj. apply in_Zseq in Hj. apply Hslots. lia.
Qed.

Lemma elems_snoc (v w : Vector) (x : list byte) :
  0 <= length v -> length w = length v + 1 ->
  (forall j, 0 <= j < length v -> slot w j = slot v j) ->
  slot w (length v) = x ->
  elems w = elems v ++ [x].
Proof.
  intros H0 Hl Hslots Hx. unfold elems, indices.
  rewrite Hl. replace (Z.to_nat (length v + 1)) with (S (Z.to_nat (length v))) by lia.
  rewrite Zseq_snoc, map_app. cbn [map]. f_equal.
  - apply map_ext_in. intros j Hj. apply in_Zseq in Hj. apply Hslots. lia.
  - f_equal. rewrite <- Hx. f_equal. lia.
Qed.

Section Growth.
Variables (realloc_ok : Z -> bool) (uninit : nat -> byte).

Lemma expand_vector_slots (v : Vector) (new_size : Z) :
  valid v -> 0 <= new_size ->
  elem_size v * new_size <= SIZE_MAX ->
  realloc_ok (elem_size v * new_size) = true ->
  exists v',
    expand_vector realloc_ok uninit v new_size = Ok v' /\
    capacity v' = new_size /\ elem_size v' = elem_size v /\ length v' = length v /\
    len (array v') = new_size * elem_size v /\
    forall j, 0 <= j < Z.min (capacity v) new_size -> slot v' j = slot v j.
Proof.
  intros Hv Hnew Hfit Hok.
  destruct (expand_vector_ok realloc_ok uninit v new_size Hv Hnew Hfit Hok)
    as (v' & Hrun & Hc & Hes & Hl & Hb & Hpre).
  exists v'. conjs; try assumption.
  intros j Hj. pose proof (valid_elem_size v Hv) as Hes0.
  unfold slot. rewrite Hes.
  apply (chunk_of_prefix _ _ _ _ _ Hpre). nia.
Qed.

End Growth.

(** X7.  [expand_vector] to a size that is at least the length (and whose
    byte count is a value of [size_t]) keeps every element: when [realloc]
    succeeds the vector returned is valid, has the requested capacity, and
    holds the same sequence of elements. *)
Theorem expand_vector_keeps_elements
    (realloc_ok : Z -> bool) (uninit : nat -> byte) (v : Vector) (new_size : Z) :
  valid v -> length v <= new_size -> new_size <= SIZE_MAX ->
  elem_size v * new_size <= SIZE_MAX ->
  realloc_ok (elem_size v * new_size) = true ->
  exists v',
    expand_vector realloc_ok uninit v new_size = Ok v' /\
    valid v' /\ capacity v' = new_size /\ elems v' = elems v.
Proof.
  intros Hv Hlen Hmax Hfit Hok. pose proof (valid_length v Hv) as Hl0.
  destruct (expand_vector_slots realloc_ok uninit v new_size) as (v' & Hrun & Hc & Hes & Hl & Hb & Hslots);
    try assumption; try lia.
  exists v'. conjs; try assumption.
  - pose proof (valid_elem_size v Hv).
    constructor; rewrite ?Hc, ?Hes, ?Hl; try lia.
  - apply elems_ext; [assumption|]. intros j Hj. apply Hslots. lia.
Qed.

Lemma expand_vector_keeps_elements_witness :
  exists v',
    expand_vector realloc_succeeds zero_filled three_bytes 8 = Ok v' /\
    valid v' /\ capacity v' = 8 /\ elems v' = elems three_bytes.
Proof.
  apply (expand_vector_keeps_elements realloc_succeeds zero_filled three_bytes 8).
  - valid_by_computation.
  - cbn. lia.
  - vm_compute. discriminate.
  - vm_compute. discriminate.
  - reflexivity.
Defined.

(** X8.  [push_back] on a valid vector with room, or on a full one that
    can be doubled (sizes within [size_t], [realloc] succeeding), returns a
    valid vector whose elements are the former ones followed by the
    [elem_size] bytes of the appended object; the length grows by one, the
    element size is kept, and [is_empty] answers [FALSE]. *)
Theorem push_back_appends
    (realloc_ok : Z -> bool) (uninit : nat -> byte) (v : Vector) (e : list byte) :
  valid v -> length v <= INT_MAX -> 1 <= capacity v -> elem_size v <= len e ->
  (length v = capacity v ->
   2 * capacity v * Z.max 1 (elem_size v) <= SIZE_MAX /\
   realloc_ok (elem_size v * (2 * capacity v)) = true) ->
  exists v',
    push_back realloc_ok uninit v (object e) = Ok v' /\ valid v' /\
    elems v' = elems v ++ [elem_of v e] /\
    length v' = length v + 1 /\ elem_size v' = elem_size v /\
    is_empty v' = FALSE.
Proof.
  intros Hv Hint Hcap1 He Hfull.
  pose proof (valid_length v Hv) as Hlen. pose proof (valid_elem_size v Hv) as Hes.
  pose proof (valid_capacity v Hv) as Hcap.
  assert (Hne : (length v + 1 =? 0) = false) by (apply Z.eqb_neq; lia).
  unfold push_back. destruct (length v <? capacity v) eqn:Elt.
  - apply Z.ltb_lt in Elt.
    rewrite Z.geb_leb.
    replace (capacity v <=? length v) with false by (symmetry; apply Z.leb_gt; lia).
    cbn [bind]. rewrite to_int_small by (unfold INT_MIN, INT_MAX in *; lia).
    rewrite set_elem_object by (assumption || lia). cbn [bind].
    fold (elem_of v e). set (b := elem_of v e).
    assert (Hb : len b = elem_size v)
      by (unfold b, elem_of; rewrite length_firstn; lia).
    change (length (put v (length v) b)) with (length v).
    rewrite to_size_t_small by (unfold INT_MAX, SIZE_MAX in *; lia).
    eexists. split; [reflexivity|]. conjs; try reflexivity.
    + apply valid_set_length.
      * apply valid_put; assumption || lia.
      * change (capacity (put v (length v) b)) with (capacity v). lia.
    + apply elems_snoc; try reflexivity; try lia.
      * intros j Hj. change (slot (set_length ?w _) j) with (slot w j).
        apply slot_put_other; assumption || lia.
      * change (slot (set_length ?w _) (length v)) with (slot w (length v)).
        apply slot_put_same; assumption || lia.
    + unfold is_empty. cbn [length set_length]. now rewrite Hne.
  - apply Z.ltb_ge in Elt. assert (Heq : length v = capacity v) by lia.
    destruct (Hfull Heq) as [Hfit Hok].
    rewrite Z.geb_leb.
    replace (capacity v <=? length v) with true by (symmetry; apply Z.leb_le; lia).
    rewrite to_size_t_small by nia.
    destruct (expand_vector_slots realloc_ok uninit v (capacity v * 2))
      as (v1 & Hrun & Hc1 & Hes1 & Hl1 & Hb1 & Hslots1); try assumption; try nia.
    { now replace (capacity v * 2) with (2 * capacity v) by lia. }
    rewrite Hrun. cbn [bind].
    assert (Hv1 : valid v1).
    { constructor; rewrite ?Hc1, ?Hes1, ?Hl1; try lia; try nia. }
    rewrite Hl1. rewrite to_int_small by (unfold INT_MIN, INT_MAX in *; lia).
    rewrite (set_elem_object v1 Hv1) by (rewrite ?Hc1, ?Hes1; lia). cbn [bind].
    rewrite Hes1. fold (elem_of v e). set (b := elem_of v e).
    assert (Hb : len b = elem_size v1)
      by (unfold b, elem_of; rewrite length_firstn; lia).
    change (length (put v1 (length v) b)) with (length v1). rewrite Hl1.
    rewrite to_size_t_small by (unfold INT_MAX, SIZE_MAX in *; lia).
    eexists. split; [reflexivity|]. conjs; try reflexivity.
    + apply valid_set_length.
      * apply valid_put; try assumption. rewrite Hc1. lia.
      * change (capacity (put v1 (length v) b)) with (capacity v1). rewrite Hc1. lia.
    + apply elems_snoc; try reflexivity; try lia.
      * intros j Hj. change (slot (set_length ?w _) j) with (slot w j).
        rewrite slot_put_other; try assumption; try (rewrite ?Hc1; lia).
        apply Hslots1. lia.
      * change (slot (set_length ?w _) (length v)) with (slot w (length v)).
        apply slot_put_same; try assumption. rewrite Hc1. lia.
    + cbn [elem_size set_length put set_array]. exact Hes1.
    + unfold is_empty. cbn [length set_length]. now rewrite Hne.
Qed.

Lemma push_back_appends_witness :
  exists v',
    push_back realloc_succeeds zero_filled two_pairs (object [x05; x06]) = Ok v' /\
    valid v' /\
    elems v' = elems two_pairs ++ [elem_of two_pairs [x05; x06]] /\
    length v' = length two_pairs + 1 /\ elem_size v' = elem_size two_pairs /\
    is_empty v' = FALSE.
Proof.
  apply (push_back_appends realloc_succeeds zero_filled two_pairs [x05; x06]).
  - valid_by_computation.
  - vm_compute. discriminate.
  - cbn. lia.
  - cbn. lia.
  - intros _. split; [vm_compute; discriminate | reflexivity].
Defined.

(** X9.  [push_back] on a full valid vector whose doubled size is within
    [size_t] terminates the process with status 1 and the expansion
    message when [realloc] fails, whatever the element. *)
Theorem push_back_exits_when_realloc_fails
    (realloc_ok : Z -> bool) (uninit : nat -> byte) (v : Vector) (element : ptr) :
  valid v -> length v = capacity v ->
  2 * capacity v * Z.max 1 (elem_size v) <= SIZE_MAX ->
  realloc_ok (elem_size v * (2 * capacity v)) = false ->
  push_back realloc_ok uninit v element = Exited 1 expansion_failed.
Proof.
  intros Hv Hfull Hfit Hfail.
  pose proof (valid_length v Hv) as Hlen. pose proof (valid_elem_size v Hv) as Hes.
  unfold push_back. rewrite Z.geb_leb.
  replace (capacity v <=? length v) with true by (symmetry; apply Z.leb_le; lia).
  unfold expand_vector, realloc.
  rewrite (to_size_t_small (capacity v * 2)) by nia.
  rewrite to_size_t_small by nia.
  replace (capacity v * 2) with (2 * capacity v) by lia.
  rewrite Hfail. reflexivity.
Qed.

Lemma push_back_exits_when_realloc_fails_witness :
  push_back (fun _ => false) zero_filled two_pairs (object [x05; x06]) =
  Exited 1 expansion_failed.
Proof.
  apply (push_back_exits_when_realloc_fails (fun _ => false) zero_filled two_pairs
           (object [x05; x06])).
  - valid_by_computation.
  - reflexivity.
  - vm_compute. discriminate.
  - reflexivity.
Defined.


(** X10.  [push_back] on a vector whose length is below its capacity does
    not involve [realloc]: its outcome is the same under every behaviour of
    the allocator, and when it returns, the capacity and the size of the
    buffer are those before the call. *)
Theorem push_back_below_capacity_keeps_buffer
    (realloc_ok realloc_ok' : Z -> bool) (uninit uninit' : nat -> byte)
    (v : Vector) (element : ptr) :
  length v < capacity v ->
  push_back realloc_ok uninit v element = push_back realloc_ok' uninit' v element /\
  forall v', push_back realloc_ok uninit v element = Ok v' ->
    capacity v' = capacity v /\ len (array v') = len (array v).
Proof.
  intros Hlt. unfold push_back. rewrite Z.geb_leb.
  replace (capacity v <=? length v) with false by (symmetry; apply Z.leb_gt; lia).
  cbn [bind]. split; [reflexivity|].
  intros v' Hrun. unfold set_elem, memcpy in Hrun.
  destruct (overlaps _ _ _); [discriminate|].
  destruct (read v element (elem_size v)) as [bytes| |]; cbn [bind] in Hrun;
    try discriminate.
  unfold store in Hrun.
  destruct (_ && _) eqn:Hin; cbn [bind] in Hrun; [|discriminate].
  injection Hrun as <-. cbn [capacity array set_length set_array].
  split; [reflexivity|].
  apply andb_true_iff in Hin as [H0 H1]. apply Z.leb_le in H0, H1.
  rewrite length_splice by lia. reflexivity.
Qed.

Lemma push_back_below_capacity_keeps_buffer_witness :
  push_back realloc_succeeds zero_filled three_bytes (object [x07]) =
  push_back (fun _ => false) (fun _ => xff) three_bytes (object [x07]) /\
  forall v', push_back realloc_succeeds zero_filled three_bytes (object [x07]) = Ok v' ->
    capacity v' = capacity three_bytes /\ len (array v') = len (array three_bytes).
Proof.
  apply (push_back_below_capacity_keeps_buffer realloc_succeeds (fun _ => false)
           zero_filled (fun _ => xff) three_bytes (object [x07])).
  cbn. lia.
Defined.

Section ReadBack.
Variables (realloc_ok : Z -> bool) (uninit : nat -> byte).
Variables (v0 : Vector) (elements : list (list byte)).
Hypothesis Hv0 : valid v0.
Hypothesis Hempty : length v0 = 0.
Hypothesis Hpow : is_pow2 (capacity v0).
Hypothesis Hint : len elements <= INT_MAX + 1.
Hypothesis Hfit :
  Z.max (capacity v0) (2 * len elements) * Z.max 1 (elem_size v0) <= SIZE_MAX.
Hypothesis Halloc : forall n, 0 <= n <= SIZE_MAX -> realloc_ok n = true.
Hypothesis Helements : Forall (fun e => elem_size v0 <= len e) elements.

Lemma appends_elems (k : nat) :
  (k <= List.length elements)%nat ->
  exists vk,
    push_all realloc_ok uninit v0 (firstn k elements) = Ok vk /\
    appended v0 k vk /\
    elems vk = map (elem_of v0) (firstn k elements).
Proof.
  induction k as [|k IH]; intros Hk.
  - exists v0. conjs.
    + reflexivity.
    + unfold appended. conjs; try assumption; try reflexivity; lia.
    + now apply elems_nil.
  - destruct IH as (vk & Hrun & Hinv & Helems); [lia|].
    destruct (append_step realloc_ok uninit v0 elements Hint Hfit Halloc Helements
                k vk) as (vk' & Hpush & Hinv' & _); [lia | assumption |].
    destruct Hinv as (Hvk & Hes & Hl & Hp & Hbound).
    pose proof (is_pow2_pos _ Hp) as Hpos.
    pose proof (valid_elem_size vk Hvk) as Hes0.
    destruct (push_back_appends realloc_ok uninit vk (nth k elements []))
      as (w & Hpush' & _ & Hw & _); try assumption; try lia.
    { rewrite Hes. rewrite Forall_forall in Helements.
      apply Helements, nth_In. lia. }
    { intros Hfull.
      assert (2 * capacity vk * Z.max 1 (elem_size vk) <= SIZE_MAX).
      { rewrite Hes.
        assert (2 * capacity vk <= Z.max (capacity v0) (2 * len elements)) by lia.
        nia. }
      split; [assumption|]. apply Halloc. nia. }
    rewrite Hpush in Hpush'. injection Hpush' as <-.
    exists vk'. conjs; try assumption.
    + rewrite (firstn_snoc elements k []) by lia.
      rewrite push_all_app, Hrun. cbn [bind push_all]. rewrite Hpush. reflexivity.
    + rewrite Hw, Helems, (firstn_snoc elements k []) by lia.
      rewrite map_app. cbn [map]. unfold elem_of. now rewrite Hes.
Qed.

Lemma appends_read_back :
  exists vN,
    push_all realloc_ok uninit v0 elements = Ok vN /\ valid vN /\
    elems vN = map (elem_of v0) elements.
Proof.
  destruct (appends_elems (List.length elements)) as (vN & Hrun & Hinv & He); [lia|].
  rewrite firstn_all in *. exists vN. conjs; try assumption. apply Hinv.
Qed.

End ReadBack.

(** X11.  Appending to a fresh vector and reading back: under the
    conditions that let every append return (a logarithm that is not
    negative, [realloc] succeeding, sizes within [size_t], indices within
    [int]), appending a list of objects of [elem_size] bytes each to a vector
    fresh from [create_vector_with_capacity] yields a valid vector whose
    sequence of elements is exactly that list, in order. *)
Theorem push_all_reads_back
    (ceil_log2 : Z -> Z) (realloc_ok : Z -> bool) (uninit : nat -> byte)
    (es min_capacity : Z) (elements : list (list byte)) :
  let v0 := create_vector_with_capacity ceil_log2 es min_capacity in
  0 <= es ->
  (2 < to_int min_capacity -> 0 <= ceil_log2 (to_int min_capacity)) ->
  len elements <= INT_MAX + 1 ->
  Z.max (capacity v0) (2 * len elements) * Z.max 1 es <= SIZE_MAX ->
  (forall n, 0 <= n <= SIZE_MAX -> realloc_ok n = true) ->
  Forall (fun e => len e = es) elements ->
  exists vN,
    push_all realloc_ok uninit v0 elements = Ok vN /\ valid vN /\
    elems vN = elements.
Proof.
  intros v0 Hes Hlog Hint Hfit Halloc Helements.
  assert (Hpow : is_pow2 (capacity v0))
    by now apply is_pow2_create_vector_with_capacity.
  pose proof (is_pow2_pos _ Hpow) as Hpos.
  assert (Hv0 : valid v0).
  { apply valid_create_vector_with_capacity;
      [assumption | fold v0; nia | fold v0; nia]. }
  destruct (appends_read_back realloc_ok uninit v0 elements)
    as (vN & Hrun & HvN & He); try assumption; try reflexivity.
  { eapply Forall_impl; [|exact Helements]. cbn. intros e ->. reflexivity. }
  exists vN. conjs; try assumption.
  rewrite He. rewrite <- (map_id elements) at 2.
  apply map_ext_in. intros e Hin. rewrite Forall_forall in Helements.
  unfold elem_of. apply firstn_all2. change (elem_size v0) with es.
  rewrite <- (Helements e Hin). lia.
Qed.

Lemma push_all_reads_back_witness :
  let elements := map int_bytes [7; 8; 9] in
  exists vN,
    push_all realloc_succeeds zero_filled
      (create_vector_with_capacity exact_ceil_log2 4 1) elements = Ok vN /\
    valid vN /\ elems vN = elements.
Proof.
  apply (push_all_reads_back exact_ceil_log2 realloc_succeeds zero_filled 4 1
           (map int_bytes [7; 8; 9])).
  - lia.
  - vm_compute. intros H. discriminate H.
  - vm_compute. discriminate.
  - vm_compute. discriminate.
  - intros n _. reflexivity.
  - repeat constructor.
Defined.

Section Default.
Variables (realloc_ok : Z -> bool) (uninit : nat -> byte).

Lemma create_vector_with_default_loop_push_all
    (initial_size : Z) (default_value : list byte) budget :
  forall (v : Vector) (i : Z),
    0 <= i <= initial_size -> initial_size <= INT_MAX ->
    (Z.to_nat (initial_size - i) < budget)%nat ->
    create_vector_with_default_loop realloc_ok uninit budget v initial_size
      (object default_value) i =
    push_all realloc_ok uninit v
      (repeat default_value (Z.to_nat (initial_size - i))).
Proof.
  induction budget as [|budget IH]; intros v i Hi Hn Hbudget; [lia|].
  cbn [create_vector_with_default_loop].
  rewrite ltb_size_t_int by (unfold INT_MAX, SIZE_MAX in *; lia).
  destruct (i <? initial_size) eqn:Elt.
  - apply Z.ltb_lt in Elt.
    replace (Z.to_nat (initial_size - i))
      with (S (Z.to_nat (initial_size - (i + 1)))) by lia.
    cbn [repeat push_all].
    destruct (push_back realloc_ok uninit v (object default_value)) as [v'| |];
      cbn [bind]; try reflexivity.
    rewrite int_result_ok by (unfold INT_MIN, INT_MAX in *; lia). cbn [bind].
    apply IH; lia.
  - apply Z.ltb_ge in Elt.
    replace (Z.to_nat (initial_size - i)) with 0%nat by lia. reflexivity.
Qed.

End Default.

(** X12.  Under the same conditions, [create_vector_with_default] returns
    a valid vector of length [initial_size], each element of which is the
    [elem_size] bytes of the default value. *)
Theorem create_vector_with_default_fills
    (ceil_log2 : Z -> Z) (realloc_ok : Z -> bool) (uninit : nat -> byte)
    (es initial_size : Z) (default_value : list byte) :
  let v0 := create_vector_with_capacity ceil_log2 es initial_size in
  0 <= es -> 0 <= initial_size <= INT_MAX ->
  (2 < initial_size -> 0 <= ceil_log2 initial_size) ->
  Z.max (capacity v0) (2 * initial_size) * Z.max 1 es <= SIZE_MAX ->
  (forall n, 0 <= n <= SIZE_MAX -> realloc_ok n = true) ->
  es <= len default_value ->
  exists v,
    create_vector_with_default ceil_log2 realloc_ok uninit es initial_size
      (object default_value) = Ok v /\
    valid v /\ length v = initial_size /\
    elems v = repeat (firstn (Z.to_nat es) default_value) (Z.to_nat initial_size).
Proof.
  intros v0 Hes Hn Hlog Hfit Halloc Hd.
  assert (Hto : to_int initial_size = initial_size)
    by (apply to_int_small; unfold INT_MIN, INT_MAX in *; lia).
  assert (Hpow : is_pow2 (capacity v0)).
  { apply is_pow2_create_vector_with_capacity. now rewrite Hto. }
  pose proof (is_pow2_pos _ Hpow) as Hpos.
  assert (Hv0 : valid v0).
  { apply valid_create_vector_with_capacity;
      [assumption | fold v0; nia | fold v0; nia]. }
  unfold create_vector_with_default. fold v0.
  rewrite create_vector_with_default_loop_push_all by lia.
  rewrite Z.sub_0_r.
  set (elements := repeat default_value (Z.to_nat initial_size)).
  assert (Hcount : len elements = initial_size)
    by (unfold elements; rewrite repeat_length; lia).
  assert (Hint : len elements <= INT_MAX + 1) by lia.
  assert (Hfit' : Z.max (capacity v0) (2 * len elements) * Z.max 1 (elem_size v0)
                  <= SIZE_MAX) by (rewrite Hcount; exact Hfit).
  assert (Helements : Forall (fun e => elem_size v0 <= len e) elements).
  { apply Forall_forall. intros e Hin. apply repeat_spec in Hin.
    rewrite Hin. exact Hd. }
  destruct (appends_elems realloc_ok uninit v0 elements Hv0 eq_refl Hpow Hint Hfit'
              Halloc Helements (List.length elements) (le_n _))
    as (v & Hrun & Hinv & He).
  rewrite firstn_all in *. exists v. split; [exact Hrun|].
  destruct Hinv as (Hv & _ & Hl & _).
  conjs; try assumption.
  - lia.
  - rewrite He. unfold elements. rewrite map_repeat. reflexivity.
Qed.

Lemma create_vector_with_default_fills_witness :
  exists v,
    create_vector_with_default exact_ceil_log2 realloc_succeeds zero_filled 1 5
      (object [x2a]) = Ok v /\
    valid v /\ length v = 5 /\
    elems v = repeat (firstn (Z.to_nat 1) [x2a]) (Z.to_nat 5).
Proof.
  apply (create_vector_with_default_fills exact_ceil_log2 realloc_succeeds
           zero_filled 1 5 [x2a]).
  - lia.
  - unfold INT_MAX. lia.
  - intros _. vm_compute. discriminate.
  - vm_compute. discriminate.
  - intros n _. reflexivity.
  - cbn. lia.
Defined.

(** ** Cloning *)

(** X13.  [clone] of a valid vector returns a valid vector with the same
    element size, length and capacity and the same sequence of elements;
    the slots from the length up to the capacity are not copied: in the
    clone they hold zero bytes. *)
Theorem clone_copies (v : Vector) :
  valid v ->
  exists c,
    clone v = Ok c /\ valid c /\
    elem_size c = elem_size v /\ length c = length v /\ capacity c = capacity v /\
    elems c = elems v /\
    forall i, length v <= i < capacity v -> slot c i = zero_slot v.
Proof.
  intros Hv. destruct Hv as [Hes Hlen Hcap Hbytes Hbuf].
  assert (Hv : valid v) by (constructor; assumption).
  set (K := elem_size v * length v).
  assert (HK : 0 <= K <= capacity v * elem_size v) by (unfold K; nia).
  unfold clone. fold K. rewrite to_size_t_small by lia.
  unfold load.
  replace (0 <=? K) with true by (symmetry; apply Z.leb_le; lia).
  replace (0 + K <=? len (array v)) with true by (symmetry; apply Z.leb_le; lia).
  cbn [andb Z.leb Z.compare bind]. change (skipn (Z.to_nat 0) (array v)) with (array v).
  set (bytes := firstn (Z.to_nat K) (array v)).
  assert (Hb : List.length bytes = Z.to_nat K)
    by (unfold bytes; rewrite length_firstn; lia).
  assert (Hz : List.length (calloc (capacity v) (elem_size v))
               = Z.to_nat (capacity v * elem_size v))
    by (unfold calloc; apply repeat_length).
  unfold store.
  replace (0 + len bytes <=? len (calloc (capacity v) (elem_size v))) with true
    by (symmetry; apply Z.leb_le; lia).
  cbn [andb Z.leb Z.compare bind]. change (Z.to_nat 0) with 0%nat.
  set (new_array := splice _ 0 bytes).
  assert (Hnew : List.length new_array = List.length (array v)).
  { unfold new_array. rewrite length_splice by lia. lia. }
  assert (Hpre : firstn (Z.to_nat K) new_array = firstn (Z.to_nat K) (array v)).
  { unfold new_array, splice. cbn [firstn app Nat.add].
    rewrite firstn_app, Hb, Nat.sub_diag. cbn [firstn].
    rewrite app_nil_r, (firstn_all2 bytes) by lia. reflexivity. }
  eexists. split; [reflexivity|].
  cbn [elem_size length capacity].
  assert (Hvc : valid {| array := new_array; elem_size := elem_size v;
                         length := length v; capacity := capacity v |}).
  { constructor; cbn [elem_size length capacity array]; try assumption.
    rewrite Hnew. exact Hbuf. }
  conjs; try reflexivity; try assumption.
  - apply elems_ext; [reflexivity|]. intros j Hj.
    unfold slot. cbn [array elem_size].
    apply (chunk_of_prefix _ _ _ _ _ Hpre). unfold K. nia.
  - intros i Hi. unfold slot, zero_slot. cbn [array elem_size].
    unfold new_array. rewrite chunk_splice_other.
    + unfold calloc. apply chunk_repeat. nia.
    + lia.
    + right. rewrite Hb. unfold K. nia.
Qed.

Lemma clone_copies_witness :
  exists c,
    clone three_bytes = Ok c /\ valid c /\
    elem_size c = elem_size three_bytes /\ length c = length three_bytes /\
    capacity c = capacity three_bytes /\
    elems c = elems three_bytes /\
    forall i, length three_bytes <= i < capacity three_bytes ->
      slot c i = zero_slot three_bytes.
Proof.
  apply (clone_copies three_bytes). valid_by_computation.
Defined.

(** ** Removal at and beyond the ends *)

Lemma to_size_t_negative z :
  - (SIZE_MAX + 1) <= z < 0 -> to_size_t z = z + (SIZE_MAX + 1).
Proof.
  intros H. unfold to_size_t.
  replace z with (z + (SIZE_MAX + 1) + (-1) * (SIZE_MAX + 1)) at 1 by lia.
  rewrite Z_mod_plus_full. apply Z.mod_small. lia.
Qed.

Lemma length_elems v : List.length (elems v) = Z.to_nat (length v).
Proof.
  unfold elems, indices. rewrite length_map.
  generalize 0. induction (Z.to_nat (length v)); intros; simpl; auto.
Qed.

Lemma elems_set_length_pred (v : Vector) :
  1 <= length v ->
  elems (set_length v (length v - 1)) = removelast (elems v).
Proof.
  intros Hl. unfold elems, indices. cbn [length set_length].
  replace (Z.to_nat (length v)) with (S (Z.to_nat (length v - 1))) by lia.
  rewrite Zseq_snoc, map_app. cbn [map]. rewrite removelast_last.
  reflexivity.
Qed.

(** X14.  [remove_elem] does not check its index.  With an index at or
    past the length, or an index of -2 or less, the loop does not run: the
    buffer is untouched and the length is still decremented (in [size_t]
    arithmetic), so that on a non-empty vector the call drops the last
    element. *)
Theorem remove_elem_out_of_range (v : Vector) (index : Z) :
  0 <= length v <= INT_MAX -> INT_MIN <= index < INT_MAX ->
  index <= -2 \/ length v <= index ->
  exists v',
    remove_elem v index = Ok v' /\ array v' = array v /\
    length v' = to_size_t (length v - 1) /\
    (1 <= length v -> length v' = length v - 1 /\ elems v' = removelast (elems v)).
Proof.
  intros Hlen Hindex Hout.
  assert (Hguard : (to_size_t (index + 1) <? length v) = false).
  { apply Z.ltb_ge. destruct Hout as [Hneg | Hbeyond].
    - rewrite to_size_t_negative by (unfold INT_MIN, SIZE_MAX in *; lia).
      unfold INT_MIN, INT_MAX, SIZE_MAX in *. lia.
    - rewrite to_size_t_small by (unfold INT_MAX, SIZE_MAX in *; lia). lia. }
  unfold remove_elem.
  rewrite int_result_ok by (unfold INT_MIN, INT_MAX in *; lia). cbn [bind].
  cbn [remove_elem_loop]. rewrite Hguard. cbn [bind].
  eexists. split; [reflexivity|]. cbn [array length set_length].
  conjs; try reflexivity.
  intros Hpos.
  rewrite to_size_t_small by (unfold INT_MAX, SIZE_MAX in *; lia).
  split; [reflexivity|]. now apply elems_set_length_pred.
Qed.

Lemma remove_elem_out_of_range_witness :
  exists v',
    remove_elem three_bytes 7 = Ok v' /\ array v' = array three_bytes /\
    length v' = to_size_t (length three_bytes - 1) /\
    (1 <= length three_bytes ->
     length v' = length three_bytes - 1 /\
     elems v' = removelast (elems three_bytes)).
Proof.
  apply (remove_elem_out_of_range three_bytes 7).
  - unfold INT_MAX. cbn. lia.
  - unfold INT_MIN, INT_MAX. lia.
  - right. cbn. lia.
Defined.

Lemma length_Zseq start n : List.length (Zseq start n) = n.
Proof. revert start. induction n; intros; simpl; auto. Qed.

Lemma Zseq_app start m k :
  Zseq start (m + k) = Zseq start m ++ Zseq (start + Z.of_nat m) k.
Proof.
  revert start. induction m as [|m IH]; intros start.
  - simpl. now rewrite Z.add_0_r.
  - cbn [Nat.add Zseq app]. rewrite IH. do 3 f_equal. lia.
Qed.

Lemma map_slot_shift (v w : Vector) start m :
  (forall j, start <= j < start + Z.of_nat m -> slot w j = slot v (j + 1)) ->
  map (slot w) (Zseq start m) = map (slot v) (Zseq (start + 1) m).
Proof.
  revert start. induction m as [|m IH]; intros start H; [reflexivity|].
  cbn [Zseq map]. f_equal.
  - apply H. lia.
  - apply IH. intros j Hj. apply H. lia.
Qed.

(** X15.  [remove_elem] at a valid index of a valid vector returns a
    valid vector whose sequence of elements is the former one without the
    element at that index. *)
Theorem remove_elem_drops_one (a : Vector) (i : Z) :
  valid a -> int_indexed a -> 0 <= i < length a ->
  exists a',
    remove_elem a i = Ok a' /\ valid a' /\
    elems a' = firstn (Z.to_nat i) (elems a) ++ skipn (S (Z.to_nat i)) (elems a).
Proof.
  intros Ha Hint Hi. pose proof Hint as Hint'. unfold int_indexed in Hint'.
  pose proof (valid_length a Ha) as Hlen.
  unfold remove_elem.
  rewrite int_result_ok by (unfold INT_MIN, INT_MAX in *; lia). cbn [bind].
  destruct (remove_elem_loop_spec (S (Z.to_nat (length a))) a (i + 1))
    as (w' & Hrun & Hw' & Hes & Hl & Hc & Hlow & Hhigh); try assumption; try lia.
  rewrite Hrun. cbn [bind]. rewrite Hl.
  rewrite to_size_t_small by (unfold INT_MAX, SIZE_MAX in *; lia).
  eexists. split; [reflexivity|]. split.
  - apply valid_set_length; [assumption | lia].
  - set (n := Z.to_nat i). set (m := Z.to_nat (length a - 1 - i)).
    unfold elems, indices. cbn [length set_length].
    change (slot (set_length w' (length a - 1))) with (slot w').
    replace (Z.to_nat (length a - 1)) with (n + m)%nat by lia.
    replace (Z.to_nat (length a)) with (n + (1 + m))%nat by lia.
    rewrite !Zseq_app, !map_app. cbn [Zseq map app].
    rewrite firstn_app, skipn_app, !length_map, !length_Zseq.
    replace (S n - n)%nat with 1%nat by lia. rewrite Nat.sub_diag.
    rewrite firstn_all2 by (rewrite length_map, length_Zseq; lia).
    rewrite skipn_all2 by (rewrite length_map, length_Zseq; lia).
    cbn [firstn skipn app]. rewrite app_nil_r. f_equal.
    + apply map_ext_in. intros j Hj. apply in_Zseq in Hj. apply Hlow. lia.
    + replace (0 + Z.of_nat n + Z.of_nat 1) with (0 + Z.of_nat n + 1) by lia.
      apply map_slot_shift. intros j Hj.
      replace j with ((j + 1) - 1) at 1 by lia. apply Hhigh. lia.
Qed.

Lemma remove_elem_drops_one_witness :
  exists a',
    remove_elem three_bytes 1 = Ok a' /\ valid a' /\
    elems a' =
    firstn (Z.to_nat 1) (elems three_bytes) ++
    skipn (S (Z.to_nat 1)) (elems three_bytes).
Proof.
  apply (remove_elem_drops_one three_bytes 1).
  - valid_by_computation.
  - unfold int_indexed, INT_MAX. cbn. lia.
  - cbn. lia.
Defined.

Lemma slot_before_start (es : Z) :
  0 < es <= SIZE_MAX -> to_size_t (to_size_t (-1) * es) = SIZE_MAX + 1 - es.
Proof.
  intros H. change (to_size_t (-1)) with SIZE_MAX.
  replace (SIZE_MAX * es) with (- es + es * (SIZE_MAX + 1)) by lia.
  unfold to_size_t at 1. rewrite Z_mod_plus_full.
  fold (to_size_t (- es)). rewrite to_size_t_negative by lia. lia.
Qed.

(** X16.  [remove_elem] with index -1 on a valid, non-empty vector of
    non-empty elements starts its loop at 0 and copies slot 0 to the slot
    before the start of the buffer: an access outside the buffer. *)
Theorem remove_elem_at_minus_one (v : Vector) :
  valid v -> 1 <= length v -> 0 < elem_size v ->
  remove_elem v (-1) = Undefined.
Proof.
  intros Hv Hl Hes. pose proof (valid_length v Hv) as Hlen.
  pose proof (valid_bytes v Hv) as Hbytes. pose proof (valid_buffer v Hv) as Hbuf.
  unfold remove_elem. change (int_result (-1 + 1)) with (Ok (A := Z) 0).
  cbn [bind remove_elem_loop]. change (to_size_t 0) with 0.
  replace (0 <? length v) with true by (symmetry; apply Z.ltb_lt; lia).
  change (int_result (0 - 1)) with (Ok (A := Z) (-1)). cbn [bind].
  unfold set_elem, memcpy.
  rewrite slot_before_start by nia.
  destruct (overlaps _ _ _); [reflexivity|].
  rewrite read_get_elem by (assumption || lia). cbn [bind].
  unfold store. rewrite (length_slot v Hv 0) by lia.
  replace (SIZE_MAX + 1 - elem_size v + elem_size v <=? len (array v)) with false
    by (symmetry; apply Z.leb_gt; lia).
  rewrite andb_false_r. reflexivity.
Qed.

Lemma remove_elem_at_minus_one_witness :
  remove_elem three_bytes (-1) = Undefined.
Proof.
  apply (remove_elem_at_minus_one three_bytes).
  - valid_by_computation.
  - cbn. lia.
  - cbn. lia.
Defined.

(** ** Operations composed *)

Lemma nth_error_elems (v : Vector) (j : Z) :
  0 <= j < length v -> nth_error (elems v) (Z.to_nat j) = Some (slot v j).
Proof.
  intros Hj. unfold elems, indices.
  replace (Z.to_nat (length v))
    with (Z.to_nat j + S (Z.to_nat (length v - j - 1)))%nat by lia.
  rewrite Zseq_app, map_app.
  rewrite nth_error_app2 by (rewrite length_map, length_Zseq; lia).
  rewrite length_map, length_Zseq, Nat.sub_diag. cbn [Zseq map nth_error].
  do 2 f_equal. lia.
Qed.

Section AfterPush.
Variables (realloc_ok : Z -> bool) (uninit : nat -> byte).
Variables (v : Vector) (e : list byte).
Hypothesis Hv : valid v.
Hypothesis Hint : length v < INT_MAX.
Hypothesis Hcap1 : 1 <= capacity v.
Hypothesis He : elem_size v <= len e.
Hypothesis Hfull :
  length v = capacity v ->
  2 * capacity v * Z.max 1 (elem_size v) <= SIZE_MAX /\
  realloc_ok (elem_size v * (2 * capacity v)) = true.

Lemma push_back_slots :
  exists v',
    push_back realloc_ok uninit v (object e) = Ok v' /\ valid v' /\
    length v' = length v + 1 /\ elem_size v' = elem_size v /\
    elems v' = elems v ++ [elem_of v e] /\
    slot v' (length v) = elem_of v e /\
    forall j, 0 <= j < length v -> slot v' j = slot v j.
Proof.
  pose proof (valid_length v Hv) as Hlen.
  destruct (push_back_appends realloc_ok uninit v e)
    as (v' & Hrun & Hv' & Helems & Hl & Hes & _); try assumption; try lia.
  exists v'. conjs; try assumption.
  - assert (H : nth_error (elems v') (Z.to_nat (length v)) = Some (slot v' (length v)))
      by (apply nth_error_elems; lia).
    rewrite Helems, nth_error_app2 in H by (rewrite length_elems; lia).
    rewrite length_elems, Nat.sub_diag in H. cbn in H. congruence.
  - intros j Hj.
    assert (H : nth_error (elems v') (Z.to_nat j) = Some (slot v' j))
      by (apply nth_error_elems; lia).
    rewrite Helems, nth_error_app1 in H by (rewrite length_elems; lia).
    rewrite nth_error_elems in H by lia. congruence.
Qed.

End AfterPush.

(** X17.  Appending and then removing at the index of the appended element
    restores the vector as a sequence: after [push_back] (under the
    conditions that let it return) and [remove_elem] at the former length,
    the elements and the length are those before the two calls, and the
    vector is valid. *)
Theorem push_back_then_remove_last
    (realloc_ok : Z -> bool) (uninit : nat -> byte) (v : Vector) (e : list byte) :
  valid v -> length v < INT_MAX -> 1 <= capacity v -> elem_size v <= len e ->
  (length v = capacity v ->
   2 * capacity v * Z.max 1 (elem_size v) <= SIZE_MAX /\
   realloc_ok (elem_size v * (2 * capacity v)) = true) ->
  exists v' v'',
    push_back realloc_ok uninit v (object e) = Ok v' /\
    remove_elem v' (length v) = Ok v'' /\
    elems v'' = elems v /\ length v'' = length v /\ valid v''.
Proof.
  intros Hv Hint Hcap1 He Hfull.
  pose proof (valid_length v Hv) as Hlen.
  destruct (push_back_slots realloc_ok uninit v e Hv Hint Hcap1 He Hfull)
    as (v' & Hrun & Hv' & Hl & Hes & Helems & _).
  destruct (remove_elem_drops_one v' (length v)) as (v'' & Hrem & Hv'' & He'');
    try assumption; try (unfold int_indexed; lia); try lia.
  assert (Heq : elems v'' = elems v).
  { rewrite He'', Helems.
    rewrite firstn_app, skipn_app, length_elems.
    rewrite firstn_all2 by (rewrite length_elems; lia).
    rewrite skipn_all2 by (rewrite length_elems; lia).
    replace (S (Z.to_nat (length v)) - Z.to_nat (length v))%nat with 1%nat by lia.
    rewrite Nat.sub_diag. cbn [firstn skipn app]. now rewrite !app_nil_r. }
  exists v', v''. conjs; try assumption.
  pose proof (f_equal (@List.length _) Heq) as H.
  rewrite !length_elems in H. pose proof (valid_length v'' Hv''). lia.
Qed.

Lemma push_back_then_remove_last_witness :
  exists v' v'',
    push_back realloc_succeeds zero_filled two_pairs (object [x05; x06]) = Ok v' /\
    remove_elem v' (length two_pairs) = Ok v'' /\
    elems v'' = elems two_pairs /\ length v'' = length two_pairs /\ valid v''.
Proof.
  apply (push_back_then_remove_last realloc_succeeds zero_filled two_pairs
           [x05; x06]).
  - valid_by_computation.
  - vm_compute. reflexivity.
  - cbn. lia.
  - cbn. lia.
  - intros _. split; [vm_compute; discriminate | reflexivity].
Defined.

(** X18.  After appending an object that no element of the vector equals,
    [index_of] for that object returns the former length: the index of the
    appended element. *)
Theorem index_of_after_push_back
    (realloc_ok : Z -> bool) (uninit : nat -> byte) (v : Vector) (e : list byte) :
  valid v -> length v < INT_MAX -> 1 <= capacity v -> elem_size v <= len e ->
  (length v = capacity v ->
   2 * capacity v * Z.max 1 (elem_size v) <= SIZE_MAX /\
   realloc_ok (elem_size v * (2 * capacity v)) = true) ->
  (forall j, 0 <= j < length v -> slot v j <> elem_of v e) ->
  exists v',
    push_back realloc_ok uninit v (object e) = Ok v' /\
    index_of v' (object e) = Ok (length v).
Proof.
  intros Hv Hint Hcap1 He Hfull Hfresh. pose proof (valid_length v Hv) as Hlen.
  destruct (push_back_slots realloc_ok uninit v e Hv Hint Hcap1 He Hfull)
    as (v' & Hrun & Hv' & Hl & Hes & _ & Hlast & Hold).
  exists v'. split; [exact Hrun|].
  destruct (index_of_loop_spec v' e Hv') with (budget := S (Z.to_nat (length v')))
    (i := 0) as (r & Hr & Hcases); try (unfold int_indexed; lia); try lia.
  unfold index_of. rewrite Hr. f_equal.
  unfold elem_of in *. rewrite Hes in Hcases.
  destruct Hcases as [(Hrange & Hat & Hbefore) | (-> & Hnone)].
  - destruct (Z.eq_dec r (length v)) as [|Hne]; [assumption|].
    exfalso. apply (Hfresh r); [lia|]. rewrite <- Hold by lia. exact Hat.
  - exfalso. apply (Hnone (length v)); [lia | exact Hlast].
Qed.

Lemma index_of_after_push_back_witness :
  exists v',
    push_back realloc_succeeds zero_filled two_pairs (object [x05; x06]) = Ok v' /\
    index_of v' (object [x05; x06]) = Ok (length two_pairs).
Proof.
  apply (index_of_after_push_back realloc_succeeds zero_filled two_pairs
           [x05; x06]).
  - valid_by_computation.
  - vm_compute. reflexivity.
  - cbn. lia.
  - cbn. lia.
  - intros _. split; [vm_compute; discriminate | reflexivity].
  - intros j Hj. cbn in Hj.
    assert (j = 0 \/ j = 1) as [-> | ->] by lia; vm_compute; discriminate.
Defined.

(** ** Shared elements at the edges *)

Lemma bytes_eqb_refl a : bytes_eqb a a = true.
Proof. now apply bytes_eqb_eq. Qed.

(** X19.  A valid vector compared with itself by [any_elems_shared]
    gives [TRUE] unless it is empty, in which case the answer is [FALSE]:
    the answer is the negation of [is_empty]. *)
Theorem any_elems_shared_self (v : Vector) :
  valid v -> int_indexed v ->
  any_elems_shared v v = Ok (EmptyString, if is_empty v =? TRUE then FALSE else TRUE).
Proof.
  intros Hv Hint. rewrite any_elems_shared_value by (assumption || reflexivity).
  do 2 f_equal. pose proof (valid_length v Hv) as Hlen.
  unfold is_empty. destruct (Z.eqb_spec (length v) 0) as [H0 | Hne].
  - unfold some_pair_equal, indices. rewrite H0. reflexivity.
  - cbn. replace (some_pair_equal v v) with true; [reflexivity|].
    symmetry. unfold some_pair_equal.
    apply existsb_exists. exists 0. split; [apply in_Zseq; lia|].
    apply existsb_exists. exists 0. split; [apply in_Zseq; lia|].
    apply bytes_eqb_refl.
Qed.

Lemma any_elems_shared_self_witness :
  any_elems_shared three_bytes three_bytes =
  Ok (EmptyString, if is_empty three_bytes =? TRUE then FALSE else TRUE).
Proof.
  apply (any_elems_shared_self three_bytes).
  - valid_by_computation.
  - unfold int_indexed, INT_MAX. cbn. lia.
Defined.

(** X20.  [any_elems_shared] on two valid vectors of the same element
    size answers [FALSE], without error message, when either is empty. *)
Theorem any_elems_shared_with_empty (a b : Vector) :
  valid a -> valid b -> int_indexed a -> int_indexed b ->
  elem_size a = elem_size b -> length a = 0 \/ length b = 0 ->
  any_elems_shared a b = Ok (EmptyString, FALSE).
Proof.
  intros Ha Hb Hia Hib Hsize Hempty.
  rewrite any_elems_shared_value by assumption.
  do 2 f_equal. replace (some_pair_equal a b) with false; [reflexivity|].
  symmetry. unfold some_pair_equal, indices.
  destruct Hempty as [-> | ->]; [reflexivity|].
  cbn [Z.to_nat Zseq existsb].
  induction (Zseq 0 (Z.to_nat (length a))); [reflexivity | assumption].
Qed.

Lemma any_elems_shared_with_empty_witness :
  any_elems_shared fresh_16_ints (set_length fresh_16_ints 3) =
  Ok (EmptyString, FALSE).
Proof.
  apply (any_elems_shared_with_empty fresh_16_ints (set_length fresh_16_ints 3)).
  - valid_by_computation.
  - valid_by_computation.
  - unfold int_indexed, INT_MAX. cbn. lia.
  - unfold int_indexed, INT_MAX. cbn. lia.
  - reflexivity.
  - left. reflexivity.
Defined.

(** ** Sorting *)

Section SortKey.
Variable compare : list byte -> list byte -> Z.
Variable key : list byte -> Z.
Hypothesis compare_key : forall a b, compare a b = 1 <-> key b < key a.

Lemma sort_vector_inner_least (v : Vector) budget :
  valid v -> int_indexed v ->
  forall lo m j,
    0 <= lo <= m -> m < j -> j <= length v ->
    (forall k, lo <= k < j -> key (slot v m) <= key (slot v k)) ->
    (Z.to_nat (length v - j) < budget)%nat ->
    exists m',
      sort_vector_inner budget v compare (get_elem v m) m j =
      Ok (get_elem v m', m') /\
      lo <= m' < length v /\
      forall k, lo <= k < length v -> key (slot v m') <= key (slot v k).
Proof.
  intros Hv Hint. pose proof (valid_length v Hv) as Hlen.
  unfold int_indexed in Hint.
  induction budget as [|budget IH]; intros lo m j Hm Hmj Hj Hleast Hbudget; [lia|].
  cbn [sort_vector_inner].
  rewrite ltb_size_t_int by (unfold INT_MAX, SIZE_MAX in *; lia).
  destruct (j <? length v) eqn:Elt.
  - apply Z.ltb_lt in Elt.
    rewrite !read_get_elem by (assumption || lia). cbn [bind].
    rewrite int_result_ok by (unfold INT_MIN, INT_MAX in *; lia). cbn [bind].
    destruct (Z.eqb_spec (compare (slot v m) (slot v j)) 1) as [Hgt | Hle].
    + apply compare_key in Hgt. apply (IH lo); try lia.
      intros k Hk. destruct (Z.eq_dec k j) as [-> | Hne]; [lia|].
      specialize (Hleast k ltac:(lia)). lia.
    + assert (key (slot v m) <= key (slot v j)).
      { destruct (Z_le_gt_dec (key (slot v m)) (key (slot v j))); [assumption|].
        exfalso. apply Hle. apply compare_key. lia. }
      apply (IH lo); try lia.
      intros k Hk. destruct (Z.eq_dec k j) as [-> | Hne]; [assumption|].
      apply Hleast. lia.
  - apply Z.ltb_ge in Elt. exists m. split; [reflexivity|]. split; [lia|].
    intros k Hk. apply Hleast. lia.
Qed.

Lemma sort_vector_outer_sorts budget :
  forall (w : Vector) (i : Z),
    valid w -> int_indexed w -> 1 <= length w -> 0 <= i <= length w - 1 ->
    (forall p q, 0 <= p < i -> p <= q < length w ->
       key (slot w p) <= key (slot w q)) ->
    (Z.to_nat (length w - 1 - i) < budget)%nat ->
    exists w',
      sort_vector_outer budget w compare i = Ok w' /\
      length w' = length w /\ sorted_by key w'.
Proof.
  induction budget as [|budget IH]; intros w i Hw Hint Hne Hi Hsorted Hbudget; [lia|].
  pose proof (valid_length w Hw) as Hlen. pose proof Hint as Hint'.
  unfold int_indexed in Hint'.
  cbn [sort_vector_outer].
  rewrite ltb_size_t_int by (unfold INT_MAX, SIZE_MAX in *; lia).
  rewrite (to_size_t_small (length w - 1)) by (unfold INT_MAX, SIZE_MAX in *; lia).
  destruct (i <? length w - 1) eqn:Elt.
  - apply Z.ltb_lt in Elt.
    rewrite int_result_ok by (unfold INT_MIN, INT_MAX in *; lia). cbn [bind].
    destruct (sort_vector_inner_least w (S (Z.to_nat (length w))) Hw Hint i i (i + 1))
      as (m & Hinner & Hm & Hleast); try lia.
    { intros k Hk. replace k with i by lia. lia. }
    rewrite Hinner. cbn [bind snd].
    destruct (swap_elems_spec w i m)
      as (w1 & Hswap & Hw1 & Hes1 & Hl1 & Hc1 & Hslots); try assumption; try lia.
    rewrite Hswap. cbn [bind].
    destruct (IH w1 (i + 1)) as (w' & Hrun & Hl & Hs);
      try assumption; try (unfold int_indexed; lia); try lia.
    { intros p q Hp Hq. rewrite Hl1 in Hq.
      rewrite (Hslots p), (Hslots q) by lia.
      pose proof (exchanged_range i m q (length w)) as Hrq.
      assert (Hq' : i <= q -> i <= exchanged i m q < length w).
      { intros Hiq. unfold exchanged.
        destruct (q =? i); [lia|]. destruct (q =? m); lia. }
      destruct (Z.eq_dec p i) as [-> | Hpi].
      - replace (exchanged i m i) with m by (unfold exchanged; now rewrite Z.eqb_refl).
        apply Hleast. apply Hq'. lia.
      - replace (exchanged i m p) with p.
        2:{ unfold exchanged. destruct (Z.eqb_spec p i); [lia|].
            destruct (Z.eqb_spec p m); [lia | reflexivity]. }
        destruct (Z_lt_ge_dec q i) as [Hqi | Hqi].
        + replace (exchanged i m q) with q.
          2:{ unfold exchanged. destruct (Z.eqb_spec q i); [lia|].
              destruct (Z.eqb_spec q m); [lia | reflexivity]. }
          apply Hsorted; lia.
        + apply Hsorted; [lia|]. specialize (Hq' ltac:(lia)). lia. }
    exists w'. conjs; try assumption; congruence.
  - apply Z.ltb_ge in Elt. exists w. conjs; try reflexivity.
    intros p q Hpq Hq.
    destruct (Z.eq_dec p q) as [-> | Hne']; [lia|].
    apply Hsorted; lia.
Qed.

End SortKey.

(** X21.  [sort_vector] sorts: when the comparison function answers 1
    exactly when its first argument has the greater key, for any key
    function on elements, the vector returned for a valid vector of length
    at least 1 holds its elements in non-decreasing order of key, and they
    are a permutation of the former ones. *)
Theorem sort_vector_sorts
    (v : Vector) (compare : list byte -> list byte -> Z) (key : list byte -> Z) :
  valid v -> int_indexed v -> 1 <= length v ->
  (forall a b, compare a b = 1 <-> key b < key a) ->
  exists v',
    sort_vector v compare = Ok v' /\ sorted_by key v' /\
    Permutation (elems v') (elems v).
Proof.
  intros Hv Hint Hne Hkey. pose proof Hint as Hint'. unfold int_indexed in Hint'.
  destruct (sort_vector_outer_spec compare (S (Z.to_nat (length v - 1))) v 0)
    as (v' & Hrun & _ & _ & _ & _ & Hp); try assumption; try lia.
  destruct (sort_vector_outer_sorts compare key Hkey (S (Z.to_nat (length v - 1))) v 0)
    as (v'' & Hrun' & _ & Hs); try assumption; try lia.
  rewrite Hrun in Hrun'. injection Hrun' as <-.
  exists v'. conjs; try assumption.
  unfold sort_vector.
  rewrite to_size_t_small by (unfold INT_MAX, SIZE_MAX in *; lia).
  exact Hrun.
Qed.

Lemma by_first_byte_key a b : by_first_byte a b = 1 <-> first_byte b < first_byte a.
Proof.
  unfold by_first_byte.
  destruct (Z.ltb_spec (first_byte b) (first_byte a)); split; intros; lia.
Qed.

Lemma sort_vector_sorts_witness :
  exists v',
    sort_vector three_bytes by_first_byte = Ok v' /\ sorted_by first_byte v' /\
    Permutation (elems v') (elems three_bytes).
Proof.
  apply (sort_vector_sorts three_bytes by_first_byte first_byte).
  - valid_by_computation.
  - unfold int_indexed, INT_MAX. cbn. lia.
  - cbn. lia.
  - exact by_first_byte_key.
Defined.

Lemma sort_vector_outer_empty (compare : list byte -> list byte -> Z) budget :
  forall (v : Vector) (i : Z),
    length v = 0 -> 0 <= i <= INT_MAX ->
    (Z.to_nat (INT_MAX - i) < budget)%nat ->
    sort_vector_outer budget v compare i = Undefined.
Proof.
  induction budget as [|budget IH]; intros v i Hl Hi Hbudget; [lia|].
  cbn [sort_vector_outer]. rewrite Hl.
  change (to_size_t (0 - 1)) with SIZE_MAX.
  rewrite ltb_size_t_int by (unfold INT_MAX, SIZE_MAX in *; lia).
  replace (i <? SIZE_MAX) with true
    by (symmetry; apply Z.ltb_lt; unfold INT_MAX, SIZE_MAX in *; lia).
  destruct (Z.eq_dec i INT_MAX) as [-> | Hne].
  - reflexivity.
  - rewrite int_result_ok by (unfold INT_MIN, INT_MAX in *; lia). cbn [bind].
    change (Z.to_nat 0) with 0%nat. cbn [sort_vector_inner].
    rewrite ltb_size_t_int by (unfold INT_MAX, SIZE_MAX in *; lia).
    replace (i + 1 <? length v) with false by (symmetry; apply Z.ltb_ge; lia).
    cbn [bind snd]. unfold swap_elems. rewrite Z.eqb_refl. cbn [bind].
    apply IH; try assumption; lia.
Qed.

(** X22.  [sort_vector] has no result on an empty vector: the bound
    [length - 1] of its outer loop wraps around to [SIZE_MAX], every
    iteration exchanges a slot with itself, and the counter runs up to
    [INT_MAX], where computing [i + 1] overflows. *)
Theorem sort_vector_empty_undefined
    (v : Vector) (compare : list byte -> list byte -> Z) :
  length v = 0 ->
  to_size_t (length v - 1) = SIZE_MAX /\ sort_vector v compare = Undefined.
Proof.
  intros Hl. split; [rewrite Hl; reflexivity|].
  unfold sort_vector. apply sort_vector_outer_empty.
  - assumption.
  - unfold INT_MAX. lia.
  - rewrite Hl. change (to_size_t (0 - 1)) with SIZE_MAX.
    unfold INT_MAX, SIZE_MAX. lia.
Qed.

Lemma sort_vector_empty_undefined_witness :
  to_size_t (length fresh_16_ints - 1) = SIZE_MAX /\
  sort_vector fresh_16_ints descending = Undefined.
Proof.
  apply (sort_vector_empty_undefined fresh_16_ints descending). reflexivity.
Defined.

(** ** Appending an element of the vector itself *)

(** X23.  [push_back] given a pointer to one of the vector's own elements
    (as [get_elem] returns it): while there is room, the element is
    copied to the end and the vector stays valid; on a full vector whose
    [realloc] succeeds, the pointer is into the block [realloc] has
    released, and the copy through it is undefined. *)
Theorem push_back_own_element
    (realloc_ok : Z -> bool) (uninit : nat -> byte) (v : Vector) (i : Z) :
  valid v -> length v <= INT_MAX -> 0 <= i < length v ->
  (length v < capacity v ->
   exists v',
     push_back realloc_ok uninit v (get_elem v i) = Ok v' /\ valid v' /\
     elems v' = elems v ++ [slot v i] /\ length v' = length v + 1) /\
  (length v = capacity v ->
   2 * capacity v * Z.max 1 (elem_size v) <= SIZE_MAX ->
   realloc_ok (elem_size v * (2 * capacity v)) = true ->
   push_back realloc_ok uninit v (get_elem v i) = Undefined).
Proof.
  intros Hv Hint Hi.
  pose proof (valid_length v Hv) as Hlen. pose proof (valid_elem_size v Hv) as Hes.
  split.
  - intros Hroom. unfold push_back. rewrite Z.geb_leb.
    replace (capacity v <=? length v) with false by (symmetry; apply Z.leb_gt; lia).
    cbn [bind]. rewrite to_int_small by (unfold INT_MIN, INT_MAX in *; lia).
    rewrite set_elem_slot by (assumption || lia). cbn [bind].
    assert (Hb : len (slot v i) = elem_size v)
      by (apply length_slot; [assumption | lia]).
    change (length (put v (length v) (slot v i))) with (length v).
    rewrite to_size_t_small by (unfold INT_MAX, SIZE_MAX in *; lia).
    eexists. split; [reflexivity|]. conjs; try reflexivity.
    + apply valid_set_length.
      * apply valid_put; assumption || lia.
      * change (capacity (put v (length v) (slot v i))) with (capacity v). lia.
    + apply elems_snoc; try reflexivity; try lia.
      * intros j Hj. change (slot (set_length ?w _) j) with (slot w j).
        apply slot_put_other; assumption || lia.
      * change (slot (set_length ?w _) (length v)) with (slot w (length v)).
        apply slot_put_same; assumption || lia.
  - intros Hfull Hfit Hok. unfold push_back. rewrite Z.geb_leb.
    replace (capacity v <=? length v) with true by (symmetry; apply Z.leb_le; lia).
    rewrite to_size_t_small by nia.
    destruct (expand_vector_ok realloc_ok uninit v (capacity v * 2))
      as (v1 & Hrun & _); try assumption; try nia.
    { now replace (capacity v * 2) with (2 * capacity v) by lia. }
    rewrite Hrun. reflexivity.
Qed.

Lemma push_back_own_element_witness :
  (length two_pairs < capacity two_pairs ->
   exists v',
     push_back realloc_succeeds zero_filled two_pairs (get_elem two_pairs 0) = Ok v' /\
     valid v' /\
     elems v' = elems two_pairs ++ [slot two_pairs 0] /\
     length v' = length two_pairs + 1) /\
  (length two_pairs = capacity two_pairs ->
   2 * capacity two_pairs * Z.max 1 (elem_size two_pairs) <= SIZE_MAX ->
   realloc_succeeds (elem_size two_pairs * (2 * capacity two_pairs)) = true ->
   push_back realloc_succeeds zero_filled two_pairs (get_elem two_pairs 0) =
   Undefined).
Proof.
  apply (push_back_own_element realloc_succeeds zero_filled two_pairs 0).
  - valid_by_computation.
  - vm_compute. discriminate.
  - cbn. lia.
Defined.
